(** * TensorFlow-2D: the data pipeline of [script.js]

    A shallow embedding of [getData], [createModel], [convertToTensor] and
    [trainModel] of [src/script.js], and the properties of the pipeline
    proved over it.

    Conventions of the embedding.
    - A JavaScript number is embedded as the rational it denotes ([Qc], the
      canonical rationals, so that equality of numbers is Leibniz equality).
    - A tensor holds 32-bit floats: [num] is a rational or one of NaN,
      +Infinity and -Infinity, [tf.tensor2d] rounds every number to the
      nearest 32-bit float ([float32]: round to nearest, ties to even, with
      subnormals and overflow to infinity), and every operation on tensors
      rounds its exact result the same way.  The sign of zero is not
      represented.
    - A JavaScript object used as a record is a [gmap string jsval]; reading
      an absent property gives [JUndefined].
    - A call that may throw returns a [completion]; an array mutated in place
      ([tf.util.shuffle]) is threaded through as an explicit result.
    - [Math.random] is an explicit sequence of draws; the product
      [Math.random() * counter] is rounded to a 64-bit float.
    - [trainModel] hands over to [model.fit], which belongs to the training
      framework: the loop is embedded as the specification describes it, the
      optimizer and what the model computes are parameters. *)

From Stdlib Require Import QArith Qcanon Qround Qabs Lqa.
From stdpp Require Import base option list numbers strings gmap.

Local Open Scope Qc_scope.
Local Set Warnings "-register-all".

(** ** JavaScript values and completions *)

Module Js.

(** The values a parsed JSON document is made of, and [undefined]. *)
Inductive jsval : Type :=
| JUndefined
| JNull
| JBool (b : bool)
| JNum (q : Qc)
| JStr (s : string)
| JArr (items : list jsval)
| JObj (props : list (string * jsval)).

(** [v == null]: the abstract (loose) equality of ECMAScript with [null] as
    one operand holds for [null] and [undefined] and for nothing else. *)
Definition loose_eq_null (v : jsval) : bool :=
  match v with
  | JNull | JUndefined => true
  | _ => false
  end.

(** [v != null] *)
Definition loose_neq_null (v : jsval) : bool := negb (loose_eq_null v).

(** [o.k] on a plain object: the own property, or [undefined]. *)
Definition get (o : gmap string jsval) (k : string) : jsval :=
  default JUndefined (o !! k).

(** Thrown values. *)
Inductive exn : Type :=
| JsError (name : string) (message : string).

Inductive completion (A : Type) : Type :=
| Returned (a : A)
| Thrown (e : exn).
Global Arguments Returned {A} a.
Global Arguments Thrown {A} e.

(** Sequencing: a thrown value skips the rest of the statements. *)
Global Instance completion_bind : MBind completion := λ A B k c,
  match c with
  | Returned a => k a
  | Thrown e => Thrown e
  end.

Global Instance completion_ret : MRet completion := λ A a, Returned a.

End Js.
Import Js.

(** ** [getData] *)

(** A row of the remote data set. *)
Abbreviation RawRecord := (gmap string jsval).

(** The object literal [{ mpg: ..., horsepower: ... }] built by [getData]. *)
Record Car : Type := mkCar { car_mpg : jsval; car_horsepower : jsval }.

Definition project (car : RawRecord) : Car :=
  {| car_mpg := get car "Miles_per_Gallon";
     car_horsepower := get car "Horsepower" |}.

Definition retained (car : Car) : bool :=
  loose_neq_null (car_mpg car) && loose_neq_null (car_horsepower car).

(** [getData]; the argument is the outcome of [await fetch(..)] followed by
    [await carsDataReq.json()]: the parsed rows, or the failure thrown by
    either of them, which [getData] does not catch. *)
Definition getData (response : completion (list RawRecord)) : completion (list Car) :=
  carsData ← response;
  let cleaned := List.filter retained (map project carsData) in
  Returned cleaned.

(** The data loader as the specification words it: walking the rows in
    order, a row whose two projected fields are both non-null is kept (as
    its projection), any other row is dropped.  Non-null is the source's
    test [!= null]. *)
Inductive Cleaned : list RawRecord → list Car → Prop :=
| Cleaned_nil : Cleaned [] []
| Cleaned_keep raw raws cars :
    loose_neq_null (get raw "Miles_per_Gallon") = true →
    loose_neq_null (get raw "Horsepower") = true →
    Cleaned raws cars →
    Cleaned (raw :: raws) (project raw :: cars)
| Cleaned_drop raw raws cars :
    loose_neq_null (get raw "Miles_per_Gallon") = false
    ∨ loose_neq_null (get raw "Horsepower") = false →
    Cleaned raws cars →
    Cleaned (raw :: raws) cars.

(** The same, in terms of what the rows hold and of nothing else: a row
    that has both properties, with values other than [null] and
    [undefined], is kept as the record of these two values; a row in which
    one of the two properties is absent, [undefined] or [null] is dropped. *)
Definition holds_nothing (raw : RawRecord) (k : string) : Prop :=
  raw !! k = None ∨ raw !! k = Some JUndefined ∨ raw !! k = Some JNull.

Inductive Selected : list RawRecord → list Car → Prop :=
| Selected_nil : Selected [] []
| Selected_keep raw raws cars m h :
    raw !! "Miles_per_Gallon" = Some m → raw !! "Horsepower" = Some h →
    m ≠ JNull → m ≠ JUndefined → h ≠ JNull → h ≠ JUndefined →
    Selected raws cars →
    Selected (raw :: raws) ({| car_mpg := m; car_horsepower := h |} :: cars)
| Selected_drop raw raws cars :
    holds_nothing raw "Miles_per_Gallon" ∨ holds_nothing raw "Horsepower" →
    Selected raws cars →
    Selected (raw :: raws) cars.

(** ** Numbers held by tensors *)

Inductive num : Type :=
| Fin (q : Qc)
| PInf
| NInf
| NaN.

Definition is_nan (a : num) : bool :=
  match a with NaN => true | _ => false end.

Definition num_opp (a : num) : num :=
  match a with
  | Fin x => Fin (- x)
  | PInf => NInf
  | NInf => PInf
  | NaN => NaN
  end.

Definition num_add (a b : num) : num :=
  match a, b with
  | NaN, _ | _, NaN => NaN
  | Fin x, Fin y => Fin (x + y)
  | PInf, NInf | NInf, PInf => NaN
  | PInf, _ | _, PInf => PInf
  | NInf, _ | _, NInf => NInf
  end.

Definition num_sub (a b : num) : num := num_add a (num_opp b).

(** [a > b]; every comparison with NaN is false. *)
Definition num_gtb (a b : num) : bool :=
  match a, b with
  | NaN, _ | _, NaN => false
  | Fin x, Fin y => bool_decide (y < x)
  | PInf, PInf | NInf, NInf => false
  | PInf, _ | _, NInf => true
  | NInf, _ | _, PInf => false
  end.

Definition num_ltb (a b : num) : bool := num_gtb b a.

(** The sign of a number that is neither zero nor NaN. *)
Definition positive_num (a : num) : bool := num_gtb a (Fin 0).


Definition signed_inf (positive : bool) : num := if positive then PInf else NInf.


(** Division; a zero divisor counts as +0. *)
Definition num_div (a b : num) : num :=
  match a, b with
  | NaN, _ | _, NaN => NaN
  | Fin x, Fin y =>
      if bool_decide (y = 0)
      then (if bool_decide (x = 0) then NaN else signed_inf (bool_decide (0 < x)))
      else Fin (x / y)
  | Fin _, _ => Fin 0
  | _, Fin y => signed_inf (eqb (positive_num a) (bool_decide (0 ≤ y)))
  | _, _ => NaN
  end.

(** The order of the numbers; NaN is not compared. *)
Definition num_le (a b : num) : Prop :=
  match a, b with
  | NaN, _ | _, NaN => False
  | NInf, _ | _, PInf => True
  | Fin x, Fin y => x ≤ y
  | _, _ => False
  end.

Definition is_finite (a : num) : Prop := ∃ q, a = Fin q.

Definition is_finiteb (a : num) : bool :=
  match a with Fin _ => true | _ => false end.

(** Equality of numbers, decided. *)
Definition num_eqb (a b : num) : bool :=
  match a, b with
  | Fin x, Fin y => Qeq_bool x y
  | PInf, PInf | NInf, NInf | NaN, NaN => true
  | _, _ => false
  end.

(** ** Binary floating-point numbers

    A format has [precision] bits of significand; its least positive number
    is [2 ^ - subnormal_bits], and it overflows to infinity at
    [2 ^ overflow_exp]. *)
Record Format : Type := mkFormat { precision : Z; subnormal_bits : Z; overflow_exp : Z }.

Definition binary32 : Format :=
  {| precision := 24; subnormal_bits := 149; overflow_exp := 128 |}.
Definition binary64 : Format :=
  {| precision := 53; subnormal_bits := 1074; overflow_exp := 1024 |}.

(** The nearest integer, the even one of two that are equally near. *)
Definition round_half_even (x : Q) : Z :=
  let f := Qfloor x in
  match (x - inject_Z f ?= 1 # 2)%Q with
  | Lt => f
  | Gt => (f + 1)%Z
  | Eq => if Z.even f then f else (f + 1)%Z
  end.

(** A non-negative number [t], counted in units of the least positive number
    of the format, is rounded to a multiple of [2 ^ shift_of t]: the step of
    the floats around [t] (1 up to [2 ^ precision], doubling with every
    binade after that). *)
Definition shift_of (fmt : Format) (t : Q) : Z :=
  Z.max 0 (Z.log2 (Qfloor t) - (precision fmt - 1)).

Definition round_units (fmt : Format) (t : Q) : Z :=
  let k := shift_of fmt t in
  (round_half_even (t / inject_Z (2 ^ k)) * 2 ^ k)%Z.

Definition units_of (fmt : Format) : Q := inject_Z (2 ^ subnormal_bits fmt).

Definition round_nonneg (fmt : Format) (q : Q) : num :=
  let r := round_units fmt (q * units_of fmt) in
  if (2 ^ (overflow_exp fmt + subnormal_bits fmt) <=? r)%Z then PInf
  else Fin (Q2Qc (inject_Z r / units_of fmt)).

(** Rounding to the nearest float of the format, ties to even. *)
Definition round_to (fmt : Format) (q : Qc) : num :=
  if bool_decide (q < 0) then num_opp (round_nonneg fmt (- q))
  else round_nonneg fmt q.

Definition float32 : Qc → num := round_to binary32.
Definition float64 : Qc → num := round_to binary64.

(** The operations on 32-bit floats: the exact result, rounded. *)
Definition round32 (a : num) : num :=
  match a with Fin q => float32 q | _ => a end.

Definition f32_sub (a b : num) : num := round32 (num_sub a b).
Definition f32_div (a b : num) : num := round32 (num_div a b).

(** ** Tensors

    The fragment of the tensor library that [convertToTensor] calls.  A
    tensor is its shape and its values in row-major order. *)

Record tensor : Type := mkTensor { shape : list nat; values : list num }.

Definition sizeFromShape (s : list nat) : nat := foldr Nat.mul 1%nat s.

Definition scalar (a : num) : tensor := {| shape := []; values := [a] |}.

(** [tf.tensor2d(values, shape)] on a flat array of numbers: the shape has
    two entries and accounts for every value, or the call throws; the tensor
    is of type float32 and stores every number rounded. *)
Definition tensor2d (vals : list Qc) (s : list nat) : completion tensor :=
  if negb (length s =? 2)%nat
  then Thrown (JsError "Error" "tensor2d() requires shape to have two numbers")
  else if negb (sizeFromShape s =? length vals)%nat
  then Thrown (JsError "Error" "shape does not match the provided values")
  else Returned {| shape := s; values := map float32 vals |}.

(** What a reduction over no element at all gives is the numeric backend's
    business; the script runs on whichever backend the page loaded. *)
Class Backend : Type := {
  reduce_max_empty : num;
  reduce_min_empty : num
}.

(** The reference backend stores the absent first element, that is NaN. *)
Definition cpu_backend : Backend :=
  {| reduce_max_empty := NaN; reduce_min_empty := NaN |}.

Section Reductions.
Context `{backend : Backend}.

(** One step of the reduction loop of [max]: NaN wins, otherwise the
    larger. *)
Definition max_step (max value : num) : num :=
  if is_nan value || num_gtb value max then value else max.

Definition min_step (min value : num) : num :=
  if is_nan value || num_ltb value min then value else min.

Definition reduce_max (vals : list num) : num :=
  match vals with
  | [] => reduce_max_empty
  | first :: _ => fold_left max_step vals first
  end.

Definition reduce_min (vals : list num) : num :=
  match vals with
  | [] => reduce_min_empty
  | first :: _ => fold_left min_step vals first
  end.

(** [t.max()] and [t.min()] over all axes: a rank-0 tensor. *)
Definition tensor_max (t : tensor) : tensor := scalar (reduce_max (values t)).
Definition tensor_min (t : tensor) : tensor := scalar (reduce_min (values t)).
End Reductions.

(** An element-wise binary operation.  The second operand, or else the first,
    may be a rank-0 tensor, which is then combined with every element of the
    other; two tensors of one shape are combined position by position.  The
    script calls no other combination, and the general broadcasting of two
    different shapes of rank one or more is not part of this fragment: it is
    conflated with the incompatible shapes, which throw. *)
Definition broadcast2 (f : num → num → num) (a b : tensor) : completion tensor :=
  match shape b, values b with
  | [], [y] => Returned {| shape := shape a; values := map (λ x, f x y) (values a) |}
  | _, _ =>
      match shape a, values a with
      | [], [x] => Returned {| shape := shape b; values := map (f x) (values b) |}
      | _, _ =>
          if decide (shape a = shape b)
          then Returned {| shape := shape a; values := zip_with f (values a) (values b) |}
          else Thrown (JsError "Error" "Operands could not be broadcast together")
      end
  end.

Definition tensor_sub : tensor → tensor → completion tensor := broadcast2 f32_sub.
Definition tensor_div : tensor → tensor → completion tensor := broadcast2 f32_div.

(** [tf.tidy(fn)] runs [fn] and hands its result back; the disposal of the
    intermediate tensors is memory management and has no counterpart here. *)
Definition tidy {A : Type} (fn : unit → A) : A := fn ().

(** ** [tf.util.shuffle]: the Fisher-Yates shuffle, in place *)

(** [swap(array, left, right)].  Within [shuffle] both indices are below the
    length of the array (lemma [shuffle_swaps_in_range]); the other case, in
    which JavaScript would store [undefined], is left as the identity. *)
Definition swap {A : Type} (array : list A) (left right : nat) : list A :=
  match array !! left, array !! right with
  | Some l, Some r => <[right := l]> (<[left := r]> array)
  | _, _ => array
  end.

(** The transposition of two positions: where [swap] finds each element. *)
Definition transpose (left right i : nat) : nat :=
  if decide (i = left) then right else if decide (i = right) then left else i.

(** [(Math.random() * counter) | 0] for a draw [r]: the product is a 64-bit
    float; on the non-negative numbers below 2^31 the conversion [| 0] is the
    integer part, and it turns NaN and the infinities into 0. *)
Definition random_index (r : Qc) (counter : nat) : nat :=
  match float64 (r * Qc_of_Z (Z.of_nat counter)) with
  | Fin product => Z.to_nat (Qfloor product)
  | _ => O
  end.

(** The loop [while (counter > 0)]; [random i] is the [i]-th draw to come. *)
Fixpoint shuffle_from {A : Type} (counter : nat) (random : nat → Qc) (array : list A) : list A :=
  match counter with
  | O => array
  | S counter' =>
      let index := random_index (random O) counter in
      shuffle_from counter' (λ i, random (S i)) (swap array counter' index)
  end.

Definition shuffle {A : Type} (random : nat → Qc) (array : list A) : list A :=
  shuffle_from (length array) random array.

(** The draws of [Math.random] are 64-bit floats of [0, 1): none is above
    [1 - 2^-53]. *)
Definition unit_draws (random : nat → Qc) : Prop :=
  ∀ i, 0 ≤ random i ∧ random i ≤ Q2Qc (9007199254740991 # 9007199254740992).

(** Every [swap] of the loop, run on an array of [len] elements, is given two
    indices below [len]. *)
Fixpoint swaps_in_range (counter : nat) (random : nat → Qc) (len : nat) : Prop :=
  match counter with
  | O => True
  | S counter' =>
      ((counter' < len)%nat ∧ (random_index (random O) counter < len)%nat)
      ∧ swaps_in_range counter' (λ i, random (S i)) len
  end.

(** ** [convertToTensor] *)

(** A cleaned record as the specification types it: a record of [getData]
    whose two fields are numbers. *)
Record CleanRecord : Type := mkRecord { mpg : Qc; horsepower : Qc }.

Record TensorData : Type := mkTensorData {
  inputs : tensor;
  labels : tensor;
  inputMax : tensor;
  inputMin : tensor;
  labelMax : tensor;
  labelMin : tensor
}.

Section ConvertToTensor.
Context `{backend : Backend}.

(** The first component is the array [data] as the call leaves it: the
    shuffle works in place on the caller's array. *)
Definition convertToTensor (random : nat → Qc) (data : list CleanRecord)
  : list CleanRecord * completion TensorData :=
  let data := shuffle random data in
  (data,
   tidy (λ _,
     let inputs := map horsepower data in
     let labels := map mpg data in
     inputTensor ← tensor2d inputs [length inputs; 1%nat];
     labelTensor ← tensor2d labels [length labels; 1%nat];
     let inputMax := tensor_max inputTensor in
     let inputMin := tensor_min inputTensor in
     let labelMax := tensor_max labelTensor in
     let labelMin := tensor_min labelTensor in
     inputShifted ← tensor_sub inputTensor inputMin;
     inputRange ← tensor_sub inputMax inputMin;
     normalizedInputs ← tensor_div inputShifted inputRange;
     labelShifted ← tensor_sub labelTensor labelMin;
     labelRange ← tensor_sub labelMax labelMin;
     normalizedLabels ← tensor_div labelShifted labelRange;
     Returned {| inputs := normalizedInputs;
                 labels := normalizedLabels;
                 inputMax := inputMax;
                 inputMin := inputMin;
                 labelMax := labelMax;
                 labelMin := labelMin |})).
End ConvertToTensor.

(** The scalar form of the normalization that [convertToTensor] applies to
    every element: [value.sub(min).div(max.sub(min))], on 32-bit floats. *)
Definition normalize (value min max : num) : num :=
  f32_div (f32_sub value min) (f32_sub max min).



(** The records of the concrete scenario of the specification,
    [[{mpg:18,horsepower:130},{mpg:24,horsepower:80}]], and a data set in
    which the horsepower is the same in every record. *)
Definition example_records : list CleanRecord :=
  [ {| mpg := Qc_of_Z 18; horsepower := Qc_of_Z 130 |};
    {| mpg := Qc_of_Z 24; horsepower := Qc_of_Z 80 |} ].

Definition constant_horsepower_records : list CleanRecord :=
  [ {| mpg := Qc_of_Z 18; horsepower := Qc_of_Z 130 |};
    {| mpg := Qc_of_Z 24; horsepower := Qc_of_Z 130 |} ].

(** Data in which two different horsepowers round to one 32-bit float
    (2^24 and 2^24 + 1), data with a horsepower above the range of the
    32-bit floats (2^130), and data of one record. *)
Definition colliding_records : list CleanRecord :=
  [ {| mpg := Qc_of_Z 18; horsepower := Qc_of_Z 16777216 |};
    {| mpg := Qc_of_Z 24; horsepower := Qc_of_Z 16777217 |} ].

Definition overflowing_records : list CleanRecord :=
  [ {| mpg := Qc_of_Z 18; horsepower := 1 |};
    {| mpg := Qc_of_Z 24; horsepower := Qc_of_Z (2 ^ 130) |} ].


(** Draws that are all zero: the shuffle then swaps each position with the
    first one. *)
Definition zero_draws : nat → Qc := λ _, 0.




(** A number is in the closed unit interval. *)
Definition in_unit_interval (a : num) : Prop := ∃ q, a = Fin q ∧ 0 ≤ q ∧ q ≤ 1.

(** No number of [l] is NaN. *)
Definition nan_free (l : list num) : Prop := ∀ x, x ∈ l → is_nan x = false.

(** [m] is the least (the greatest) number of [l], none of which is NaN. *)
Definition is_least (m : num) (l : list num) : Prop := m ∈ l ∧ ∀ x, x ∈ l → num_le m x.
Definition is_greatest (m : num) (l : list num) : Prop := m ∈ l ∧ ∀ x, x ∈ l → num_le x m.

(** ** [createModel] *)

Inductive Activation : Type := Linear | Relu.

(** The argument object of [tf.layers.dense]; a property that the object
    literal leaves out is [None]. *)
Record DenseLayerArgs : Type := mkDenseLayerArgs {
  arg_inputShape : option (list nat);
  arg_units : nat;
  arg_useBias : option bool;
  arg_activation : option Activation
}.

(** A dense layer; the shapes of its weights are known once the layer is
    built, which happens when it is added to a model. *)
Record Dense : Type := mkDense {
  units : nat;
  useBias : bool;
  activation : Activation;
  inputShape : option (list nat);
  kernelShape : option (list nat);
  biasShape : option (list nat)
}.

(** [tf.layers.dense(args)]: without [activation] the layer is linear,
    without [useBias] it has a bias. *)
Definition dense (args : DenseLayerArgs) : Dense :=
  {| units := arg_units args;
     useBias := default true (arg_useBias args);
     activation := default Linear (arg_activation args);
     inputShape := arg_inputShape args;
     kernelShape := None;
     biasShape := None |}.

Definition build (layer : Dense) (input : list nat) : Dense :=
  {| units := units layer;
     useBias := useBias layer;
     activation := activation layer;
     inputShape := Some input;
     kernelShape := Some [List.last input O; units layer];
     biasShape := if useBias layer then Some [units layer] else None |}.

Definition computeOutputShape (layer : Dense) (input : list nat) : list nat :=
  removelast input ++ [units layer].

(** A sequential model: its layers, in the order they were added. *)
Record Sequential : Type := mkSequential { layers : list Dense }.

Definition sequential : Sequential := {| layers := [] |}.

Definition outputShape (model : Sequential) : option (list nat) :=
  layer ← last (layers model);
  input ← inputShape layer;
  Some (computeOutputShape layer input).

(** [model.add(layer)]: the first layer must say what its input is, a later
    one takes the output of the layer before it. *)
Definition add (model : Sequential) (layer : Dense) : completion Sequential :=
  match outputShape model with
  | Some input => Returned {| layers := layers model ++ [build layer input] |}
  | None =>
      match inputShape layer with
      | Some input => Returned {| layers := layers model ++ [build layer input] |}
      | None =>
          Thrown (JsError "ValueError"
            "The first layer in a Sequential model must get an inputShape or batchInputShape argument.")
      end
  end.

Definition createModel : completion Sequential :=
  let model := sequential in
  model ← add model (dense {| arg_inputShape := Some [1%nat]; arg_units := 1;
                              arg_useBias := Some true; arg_activation := None |});
  model ← add model (dense {| arg_inputShape := None; arg_units := 1;
                              arg_useBias := Some true; arg_activation := None |});
  Returned model.

(** *** What a built model computes

    The map that a dense layer stands for, on the rationals: the shape of
    the computation (one product and one sum per unit, no activation in
    between), not its rounding.  The weights of a dense layer: a kernel of
    [inputDim] rows of [units] entries, and a bias of [units] entries. *)
Record DenseWeights : Type := mkWeights { kernel : list (list Qc); bias : list Qc }.

Definition apply_activation (a : Activation) (v : list Qc) : list Qc :=
  match a with
  | Linear => v
  | Relu => map (λ y, if bool_decide (0 < y) then y else 0) v
  end.

(** [x . kernel + bias] *)
Definition affine (w : DenseWeights) (x : list Qc) : list Qc :=
  foldr (λ '(xi, row) acc, zip_with Qcplus (map (Qcmult xi) row) acc)
        (bias w) (zip x (kernel w)).

Definition apply_dense (layer : Dense) (w : DenseWeights) (x : list Qc) : list Qc :=
  apply_activation (activation layer)
    (affine (if useBias layer then w else {| kernel := kernel w; bias := replicate (units layer) 0 |}) x).

Definition predict (model : Sequential) (ws : list DenseWeights) (x : list Qc) : list Qc :=
  fold_left (λ v '(layer, w), apply_dense layer w v) (zip (layers model) ws) x.

(** ** [trainModel]

    [model.compile] and [model.fit] are the training framework's.  What the
    model computes for one input and how the optimizer changes the weights
    after a mini-batch are parameters; the loop around them is embedded as
    the specification describes it. *)










Section Training.
Context {W : Type}.

(** What the model computes for one input with the weights [w], and the
    weights after the optimizer has seen one mini-batch. *)
Variable forward : W → num → num.
Variable optimizer : W → list (num * num) → W.






End Training.



(** ** The two features, seen alike

    [convertToTensor] treats the horsepower and the mpg with the same code,
    written out twice; these selectors let one statement speak of either. *)
Inductive Feature : Type := Horsepower | Mpg.

Definition feature_of (f : Feature) (d : CleanRecord) : Qc :=
  match f with Horsepower => horsepower d | Mpg => mpg d end.

Definition normalized (f : Feature) (r : TensorData) : tensor :=
  match f with Horsepower => inputs r | Mpg => labels r end.

Definition lower_bound (f : Feature) (r : TensorData) : tensor :=
  match f with Horsepower => inputMin r | Mpg => labelMin r end.

Definition upper_bound (f : Feature) (r : TensorData) : tensor :=
  match f with Horsepower => inputMax r | Mpg => labelMax r end.

(** The feature as [tf.tensor2d] stores it. *)
Definition stored (f : Feature) (d : CleanRecord) : num := float32 (feature_of f d).

(** The stored feature takes two different values in the data. *)
Definition varies (f : Feature) (data : list CleanRecord) : Prop :=
  ∃ d1 d2, d1 ∈ data ∧ d2 ∈ data ∧ stored f d1 ≠ stored f d2.

(** No difference of two stored values of the feature overflows (so that
    every stored value is finite too). *)
Definition in_range (f : Feature) (data : list CleanRecord) : Prop :=
  ∀ d1 d2, d1 ∈ data → d2 ∈ data → is_finite (f32_sub (stored f d1) (stored f d2)).

(** * Properties *)

(** ** The data loader *)

Section GetData.
Implicit Types (raw : RawRecord) (raws : list RawRecord) (car : Car) (v : jsval).

Lemma loose_neq_null_false v :
  loose_neq_null v = false ↔ v = JNull ∨ v = JUndefined.
Proof.
  destruct v; simpl; (split; [intros H | intros [H | H]]);
    try discriminate; auto.
Qed.

Lemma loose_neq_null_true v :
  loose_neq_null v = true ↔ v ≠ JNull ∧ v ≠ JUndefined.
Proof.
  destruct v; simpl; (split; [intros H | intros [H1 H2]]);
    try discriminate; try congruence; auto.
Qed.

Lemma retained_project raw :
  retained (project raw) = true ↔
  loose_neq_null (get raw "Miles_per_Gallon") = true
  ∧ loose_neq_null (get raw "Horsepower") = true.
Proof. unfold retained, project; simpl. apply andb_true_iff. Qed.

Lemma retained_project_false raw :
  retained (project raw) = false ↔
  loose_neq_null (get raw "Miles_per_Gallon") = false
  ∨ loose_neq_null (get raw "Horsepower") = false.
Proof. unfold retained, project; simpl. apply andb_false_iff. Qed.

(** Reading a property: a non-null, defined result is an own property. *)
Lemma get_present raw k :
  loose_neq_null (get raw k) = true →
  ∃ v, raw !! k = Some v ∧ v ≠ JNull ∧ v ≠ JUndefined.
Proof.
  unfold get. destruct (raw !! k) as [v|]; simpl; [|done].
  intros H%loose_neq_null_true. eauto.
Qed.

Lemma get_nullish raw k :
  raw !! k = None ∨ raw !! k = Some JUndefined ∨ raw !! k = Some JNull →
  loose_neq_null (get raw k) = false.
Proof. unfold get. intros [-> | [-> | ->]]; reflexivity. Qed.

Lemma cleaned_Cleaned raws : Cleaned raws (List.filter retained (map project raws)).
Proof.
  induction raws as [|raw raws IH]; simpl; [constructor|].
  destruct (retained (project raw)) eqn:E.
  - apply retained_project in E as [? ?]. by constructor.
  - apply retained_project_false in E. by constructor.
Qed.

Lemma Cleaned_functional raws cars cars' :
  Cleaned raws cars → Cleaned raws cars' → cars = cars'.
Proof.
  intros H; revert cars'.
  induction H as [|raw raws cars Hm Hh _ IH|raw raws cars Hd _ IH];
    intros cars' H'; inversion H' as [|? ? ? Hm' Hh' H''|? ? ? Hd' H'']; subst; auto.
  - f_equal; auto.
  - destruct Hd'; congruence.
  - destruct Hd; congruence.
Qed.

Lemma Cleaned_sublist raws cars : Cleaned raws cars → sublist cars (map project raws).
Proof. induction 1; simpl; by constructor. Qed.

Lemma Cleaned_elem_of raws cars car :
  Cleaned raws cars →
  car ∈ cars ↔ car ∈ map project raws ∧ retained car = true.
Proof.
  induction 1 as [|raw raws cars Hm Hh _ IH|raw raws cars Hd _ IH]; simpl.
  - split; [by intros ?%elem_of_nil | by intros [?%elem_of_nil _]].
  - rewrite !elem_of_cons, IH. split.
    + intros [-> | [? ?]]; [|by auto]. split; [by left|]. by apply retained_project.
    + intros [[-> | ?] ?]; auto.
  - rewrite elem_of_cons, IH. split; [intros [? ?]; auto|].
    intros [[-> | ?] Hr]; [|done].
    apply retained_project in Hr as [? ?]. destruct Hd; congruence.
Qed.
End GetData.

Section Selected_facts.
Implicit Types (raw : RawRecord) (raws : list RawRecord).

Lemma get_holds_nothing raw k : loose_neq_null (get raw k) = false → holds_nothing raw k.
Proof.
  unfold get, holds_nothing. destruct (raw !! k) as [v|]; simpl; [|by left].
  intros [-> | ->]%loose_neq_null_false; auto.
Qed.

Lemma cleaned_Selected raws : Selected raws (List.filter retained (map project raws)).
Proof.
  induction raws as [|raw raws IH]; simpl; [constructor|].
  destruct (retained (project raw)) eqn:E.
  - apply retained_project in E as [Hm Hh].
    apply get_present in Hm as (m & Em & ? & ?), Hh as (h & Eh & ? & ?).
    assert (project raw = {| car_mpg := m; car_horsepower := h |}) as ->.
    { unfold project, get. by rewrite Em, Eh. }
    by constructor.
  - apply retained_project_false in E.
    apply Selected_drop; [|exact IH].
    destruct E as [E | E]; [left | right]; by apply get_holds_nothing.
Qed.

Lemma kept_not_nothing raw k v :
  raw !! k = Some v → v ≠ JNull → v ≠ JUndefined → ¬ holds_nothing raw k.
Proof. intros E H1 H2 [H | [H | H]]; rewrite E in H; congruence. Qed.

Lemma Selected_functional raws cars cars' :
  Selected raws cars → Selected raws cars' → cars = cars'.
Proof.
  intros H; revert cars'.
  induction H as [|raw raws cars m h Em Eh Hm1 Hm2 Hh1 Hh2 _ IH|raw raws cars Hd _ IH];
    intros cars' H';
    inversion H' as [|? ? ? m' h' Em' Eh' ? ? ? ? H''|? ? ? Hd' H'']; subst; auto.
  - rewrite Em in Em'. rewrite Eh in Eh'. injection Em' as <-. injection Eh' as <-.
    f_equal. by apply IH.
  - exfalso. destruct Hd' as [Hd' | Hd'];
      [by apply (kept_not_nothing raw _ m Em) | by apply (kept_not_nothing raw _ h Eh)].
  - exfalso. destruct Hd as [Hd | Hd];
      [by apply (kept_not_nothing raw _ m' Em') | by apply (kept_not_nothing raw _ h' Eh')].
Qed.
End Selected_facts.

(** C4: for every list of raw records, [getData] returns (it does not throw)
    the projections [{mpg, horsepower}] of exactly the records whose two
    fields are non-null, in the order of the input.  In terms of the rows
    themselves: the result is the one sequence that [Selected] allows (a row
    holding both values is kept as the record of its [Miles_per_Gallon] and
    its [Horsepower], any other row is dropped, and the order is kept), and
    every row that holds both values has its record in the result.  In terms
    of the test of the script: the result is the one sequence that [Cleaned]
    allows, it is a subsequence of the projected input, its members are the
    projected records with both fields non-null, no record with a null
    [Miles_per_Gallon] or [Horsepower] has its projection in it, and an empty
    input, or one in which every record fails the test, gives the empty
    sequence. *)
Theorem getData_filters_in_order (raws : list RawRecord) :
  ∃ cars,
    getData (Returned raws) = Returned cars
    ∧ Selected raws cars
    ∧ (∀ cars', Selected raws cars' → cars' = cars)
    ∧ (∀ raw m h, raw ∈ raws →
         raw !! "Miles_per_Gallon" = Some m → raw !! "Horsepower" = Some h →
         m ≠ JNull → m ≠ JUndefined → h ≠ JNull → h ≠ JUndefined →
         {| car_mpg := m; car_horsepower := h |} ∈ cars)
    ∧ Cleaned raws cars
    ∧ (∀ cars', Cleaned raws cars' → cars' = cars)
    ∧ sublist cars (map project raws)
    ∧ (∀ car, car ∈ cars ↔
         car ∈ map project raws
         ∧ loose_neq_null (car_mpg car) = true
         ∧ loose_neq_null (car_horsepower car) = true)
    ∧ (∀ raw, raw ∈ raws →
         raw !! "Miles_per_Gallon" = Some JNull ∨ raw !! "Horsepower" = Some JNull →
         project raw ∉ cars)
    ∧ (raws = [] → cars = [])
    ∧ ((∀ raw, raw ∈ raws →
          loose_neq_null (get raw "Miles_per_Gallon") = false
          ∨ loose_neq_null (get raw "Horsepower") = false) →
       cars = []).
Proof.
  exists (List.filter retained (map project raws)).
  pose proof (cleaned_Cleaned raws) as HC.
  pose proof (cleaned_Selected raws) as HS.
  split; [reflexivity|]. split; [exact HS|].
  split; [intros cars' H'; exact (Selected_functional _ _ _ H' HS)|].
  split.
  { intros raw m h Hraw Em Eh Hm1 Hm2 Hh1 Hh2.
    apply list_elem_of_In, filter_In. split.
    - apply in_map_iff. exists raw. split; [|by apply list_elem_of_In].
      unfold project, get. by rewrite Em, Eh.
    - unfold retained; simpl. apply andb_true_iff.
      split; by apply loose_neq_null_true. }
  split; [exact HC|].
  split; [intros cars' H'; exact (Cleaned_functional _ _ _ H' HC)|].
  split; [by apply Cleaned_sublist|].
  split.
  { intros car. rewrite (Cleaned_elem_of _ _ car HC).
    unfold retained. rewrite andb_true_iff. tauto. }
  split.
  { intros raw _ Hnull Hin.
    apply (Cleaned_elem_of _ _ _ HC) in Hin as [_ Hr].
    apply retained_project in Hr as [Hm Hh].
    destruct Hnull as [Hn | Hn].
    - rewrite get_nullish in Hm by auto. discriminate.
    - rewrite get_nullish in Hh by auto. discriminate. }
  split; [by intros ->|].
  intros Hall. clear HC HS.
  induction raws as [|raw raws IH]; simpl; [done|].
  assert (retained (project raw) = false) as ->.
  { apply retained_project_false, Hall. by left. }
  apply IH. intros raw' ?. apply Hall. by right.
Qed.

(** C10: the retention test [car.mpg != null && car.horsepower != null] is a
    loose comparison, false for [null] and for [undefined] alike; so
    [getData] drops the records in which either field is absent, undefined or
    null, and every record it returns comes from a raw record that has both
    properties, with values that are neither [null] nor [undefined]. *)
Theorem getData_drops_null_and_undefined (raws : list RawRecord) :
  ∃ cars,
    getData (Returned raws) = Returned cars
    ∧ (∀ v, loose_neq_null v = false ↔ v = JNull ∨ v = JUndefined)
    ∧ (∀ raw k, raw ∈ raws →
         k = "Miles_per_Gallon" ∨ k = "Horsepower" →
         raw !! k = None ∨ raw !! k = Some JUndefined ∨ raw !! k = Some JNull →
         project raw ∉ cars)
    ∧ (∀ car, car ∈ cars →
         car_mpg car ≠ JNull ∧ car_mpg car ≠ JUndefined
         ∧ car_horsepower car ≠ JNull ∧ car_horsepower car ≠ JUndefined)
    ∧ (∀ car, car ∈ cars →
         ∃ raw, raw ∈ raws
           ∧ raw !! "Miles_per_Gallon" = Some (car_mpg car)
           ∧ raw !! "Horsepower" = Some (car_horsepower car)).
Proof.
  exists (List.filter retained (map project raws)).
  pose proof (cleaned_Cleaned raws) as HC.
  split; [reflexivity|]. split; [apply loose_neq_null_false|].
  split.
  { intros raw k _ Hk Hnull Hin.
    apply (Cleaned_elem_of _ _ _ HC) in Hin as [_ Hr].
    apply retained_project in Hr as [Hm Hh].
    apply get_nullish in Hnull. destruct Hk; subst k; congruence. }
  split.
  { intros car Hin.
    apply (Cleaned_elem_of _ _ _ HC) in Hin as [_ Hr].
    unfold retained in Hr. apply andb_true_iff in Hr as [Hm Hh].
    apply loose_neq_null_true in Hm, Hh. tauto. }
  intros car Hin.
  apply (Cleaned_elem_of _ _ _ HC) in Hin as [Hin Hr].
  apply list_elem_of_In, in_map_iff in Hin as (raw & <- & Hraw).
  apply retained_project in Hr as [Hm Hh].
  apply get_present in Hm as (m & Em & _), Hh as (h & Eh & _).
  exists raw. split; [by apply list_elem_of_In|].
  unfold project, get; simpl. by rewrite Em, Eh.
Qed.

(** * Further properties of the data loader *)

Lemma cleaned_app (raws1 raws2 : list RawRecord) :
  List.filter retained (map project (raws1 ++ raws2))
  = List.filter retained (map project raws1) ++ List.filter retained (map project raws2).
Proof. by rewrite map_app, List.filter_app. Qed.

(** X1: [getData] works row by row: the records of a payload made of two
    payloads one after the other are the records of the first followed by
    the records of the second. *)
Theorem getData_app (raws1 raws2 : list RawRecord) :
  ∃ cars1 cars2,
    getData (Returned raws1) = Returned cars1
    ∧ getData (Returned raws2) = Returned cars2
    ∧ getData (Returned (raws1 ++ raws2)) = Returned (cars1 ++ cars2).
Proof.
  eexists. eexists. split; [reflexivity|]. split; [reflexivity|].
  unfold getData; simpl. by rewrite cleaned_app.
Qed.

Lemma project_agree (raw raw' : RawRecord) :
  get raw "Miles_per_Gallon" = get raw' "Miles_per_Gallon" →
  get raw "Horsepower" = get raw' "Horsepower" →
  project raw = project raw'.
Proof. unfold project. by intros -> ->. Qed.

(** X2: [getData] reads the properties [Miles_per_Gallon] and [Horsepower]
    and nothing else: two payloads whose rows agree, one by one, on what
    reading these two properties gives (an absent property reads as
    [undefined]) produce the same records. *)
Theorem getData_reads_two_properties (raws raws' : list RawRecord) :
  Forall2 (λ raw raw',
             get raw "Miles_per_Gallon" = get raw' "Miles_per_Gallon"
             ∧ get raw "Horsepower" = get raw' "Horsepower") raws raws' →
  getData (Returned raws) = getData (Returned raws').
Proof.
  intros H. unfold getData; simpl. f_equal.
  induction H as [|raw raw' raws raws' [Hm Hh] _ IH]; [done|].
  simpl. rewrite (project_agree raw raw' Hm Hh), IH. done.
Qed.

Lemma getData_reads_two_properties_example :
  getData (Returned [ {[ "Name" := JStr "buick"; "Miles_per_Gallon" := JNum (Qc_of_Z 15);
                         "Horsepower" := JNum (Qc_of_Z 165) ]};
                      {[ "Horsepower" := JNum (Qc_of_Z 150); "Cylinders" := JNum (Qc_of_Z 8) ]} ])
  = getData (Returned [ {[ "Miles_per_Gallon" := JNum (Qc_of_Z 15);
                           "Horsepower" := JNum (Qc_of_Z 165) ]};
                        {[ "Horsepower" := JNum (Qc_of_Z 150);
                           "Miles_per_Gallon" := JUndefined ]} ]).
Proof.
  apply getData_reads_two_properties.
  repeat constructor.
Defined.

Lemma filter_length_all {A : Type} (p : A → bool) (l : list A) :
  length (List.filter p l) = length l → List.filter p l = l.
Proof.
  induction l as [|a l IH]; simpl; [done|].
  pose proof (List.filter_length_le p l) as Hle.
  destruct (p a); simpl; intros Hlen.
  - f_equal. apply IH. lia.
  - lia.
Qed.

(** X3: [getData] never returns more records than the payload has rows, and
    it returns as many exactly when every row has both fields non-null, in
    which case the result is the projection of every row and nothing is
    dropped. *)
Theorem getData_length (raws : list RawRecord) :
  ∃ cars,
    getData (Returned raws) = Returned cars
    ∧ (length cars ≤ length raws)%nat
    ∧ (length cars = length raws ↔
       ∀ raw, raw ∈ raws →
         loose_neq_null (get raw "Miles_per_Gallon") = true
         ∧ loose_neq_null (get raw "Horsepower") = true)
    ∧ (length cars = length raws → cars = map project raws).
Proof.
  eexists. split; [reflexivity|].
  pose proof (List.filter_length_le retained (map project raws)) as Hle.
  rewrite length_map in Hle. split; [exact Hle|].
  split; [split|].
  - intros Hlen raw Hraw.
    rewrite <- (length_map project) in Hlen. apply filter_length_all in Hlen.
    apply retained_project.
    assert (In (project raw) (List.filter retained (map project raws))) as Hin.
    { rewrite Hlen. apply in_map. by apply list_elem_of_In. }
    by apply filter_In in Hin as [_ ?].
  - intros Hall.
    assert (List.filter retained (map project raws) = map project raws) as ->;
      [|by rewrite length_map].
    clear Hle. induction raws as [|raw raws IH]; simpl; [done|].
    assert (retained (project raw) = true) as ->.
    { apply retained_project, Hall. by left. }
    f_equal. apply IH. intros raw' ?. apply Hall. by right.
  - intros Hlen. rewrite <- (length_map project) in Hlen.
    by apply filter_length_all.
Qed.

(** X4: the test of [getData] is about [null] and [undefined] only, not
    about truthiness or type: a row whose two properties are present with
    any other value (the number 0, the empty string, [false], a string, an
    array) is kept, with these values unchanged. *)
Theorem getData_keeps_any_defined_value (raws : list RawRecord) (raw : RawRecord) (m h : jsval) :
  raw ∈ raws →
  raw !! "Miles_per_Gallon" = Some m → raw !! "Horsepower" = Some h →
  m ≠ JNull → m ≠ JUndefined → h ≠ JNull → h ≠ JUndefined →
  ∃ cars,
    getData (Returned raws) = Returned cars
    ∧ {| car_mpg := m; car_horsepower := h |} ∈ cars.
Proof.
  intros Hraw Em Eh Hm1 Hm2 Hh1 Hh2.
  eexists. split; [reflexivity|].
  apply list_elem_of_In, filter_In. split.
  - apply in_map_iff. exists raw. split; [|by apply list_elem_of_In].
    unfold project, get. by rewrite Em, Eh.
  - unfold retained; simpl. apply andb_true_iff.
    split; by apply loose_neq_null_true.
Qed.

Lemma getData_keeps_any_defined_value_example :
  ∃ cars,
    getData (Returned [ {[ "Miles_per_Gallon" := JNum 0; "Horsepower" := JStr "" ]} ])
    = Returned cars
    ∧ {| car_mpg := JNum 0; car_horsepower := JStr "" |} ∈ cars.
Proof.
  apply (getData_keeps_any_defined_value _
           {[ "Miles_per_Gallon" := JNum 0; "Horsepower" := JStr "" ]}).
  - by left.
  - reflexivity.
  - reflexivity.
  - discriminate.
  - discriminate.
  - discriminate.
  - discriminate.
Defined.

(** * Rounding to a floating-point format *)

Section Floats.
Local Open Scope Q_scope.

Lemma round_half_even_floor (x : Q) :
  (Qfloor x <= round_half_even x <= Qfloor x + 1)%Z.
Proof.
  unfold round_half_even. cbv zeta.
  destruct (x - inject_Z (Qfloor x) ?= 1 # 2); [destruct (Z.even (Qfloor x))|..]; lia.
Qed.

Lemma round_half_even_near (x : Q) :
  x - (1 # 2) <= inject_Z (round_half_even x) /\ inject_Z (round_half_even x) <= x + (1 # 2).
Proof.
  unfold round_half_even. cbv zeta.
  pose proof (Qfloor_le x) as Hlo. pose proof (Qlt_floor x) as Hhi.
  rewrite inject_Z_plus in Hhi. change (inject_Z 1) with 1 in Hhi.
  destruct (Qcompare_spec (x - inject_Z (Qfloor x)) (1 # 2)) as [E | E | E];
    [destruct (Z.even (Qfloor x))|..];
    rewrite ?inject_Z_plus; change (inject_Z 1) with 1; lra.
Qed.

Lemma round_half_even_mono (x y : Q) : x <= y -> (round_half_even x <= round_half_even y)%Z.
Proof.
  intros Hxy.
  pose proof (Qfloor_resp_le x y Hxy) as Hf.
  pose proof (round_half_even_floor x) as Hx. pose proof (round_half_even_floor y) as Hy.
  destruct (Z.eq_dec (Qfloor x) (Qfloor y)) as [E | Hne]; [|lia].
  clear Hx Hy. unfold round_half_even. cbv zeta. rewrite E.
  destruct (Qcompare_spec (x - inject_Z (Qfloor y)) (1 # 2)) as [Ex | Ex | Ex];
    destruct (Qcompare_spec (y - inject_Z (Qfloor y)) (1 # 2)) as [Ey | Ey | Ey];
    try destruct (Z.even (Qfloor y)); try lia; exfalso; lra.
Qed.

Lemma round_half_even_Z (z : Z) : round_half_even (inject_Z z) = z.
Proof.
  unfold round_half_even. cbv zeta. rewrite Qfloor_Z.
  destruct (Qcompare_spec (inject_Z z - inject_Z z) (1 # 2)) as [E | E | E]; [exfalso; lra | done | exfalso; lra].
Qed.

Lemma round_half_even_comp : Proper (Qeq ==> eq) round_half_even.
Proof.
  intros x y E. unfold round_half_even. cbv zeta.
  rewrite (Qfloor_comp _ _ E).
  assert (x - inject_Z (Qfloor y) == y - inject_Z (Qfloor y)) as E' by (by rewrite E).
  by rewrite (Qcompare_comp _ _ E' (1 # 2) (1 # 2) (Qeq_refl _)).
Qed.

#[global] Existing Instance round_half_even_comp.

Lemma shift_of_comp (fmt : Format) : Proper (Qeq ==> eq) (shift_of fmt).
Proof. intros x y E. unfold shift_of. by rewrite (Qfloor_comp _ _ E). Qed.

#[global] Existing Instance shift_of_comp.

Lemma round_units_comp (fmt : Format) : Proper (Qeq ==> eq) (round_units fmt).
Proof.
  intros x y E. unfold round_units. cbv zeta.
  rewrite (shift_of_comp fmt _ _ E).
  assert (x / inject_Z (2 ^ shift_of fmt y) == y / inject_Z (2 ^ shift_of fmt y)) as E'
    by (by rewrite E).
  by rewrite (round_half_even_comp _ _ E').
Qed.

#[global] Existing Instance round_units_comp.

Lemma round_nonneg_comp (fmt : Format) : Proper (Qeq ==> eq) (round_nonneg fmt).
Proof.
  intros x y E. unfold round_nonneg. cbv zeta.
  assert (x * units_of fmt == y * units_of fmt) as E'
    by (by rewrite E).
  by rewrite (round_units_comp fmt _ _ E').
Qed.

#[global] Existing Instance round_nonneg_comp.

Lemma round_units_zero (fmt : Format) : (1 <= precision fmt)%Z -> round_units fmt 0 = 0%Z.
Proof.
  intros Hp. unfold round_units, shift_of. cbv zeta.
  change (Qfloor 0) with 0%Z. change (Z.log2 0) with 0%Z.
  replace (Z.max 0 (0 - (precision fmt - 1))) with 0%Z by lia.
  change (0 / inject_Z (2 ^ 0)) with (inject_Z 0 / 1).
  assert (inject_Z 0 / 1 == inject_Z 0) as -> by (by field).
  by rewrite round_half_even_Z.
Qed.

Lemma pow2_pos (k : Z) : (0 < 2 ^ k)%Z -> 0 < inject_Z (2 ^ k).
Proof. intros H. rewrite <- (Zlt_Qlt 0). exact H. Qed.

Section Rounding.
Variable fmt : Format.
Hypothesis precision_pos : (1 <= precision fmt)%Z.
Hypothesis subnormal_bits_nonneg : (0 <= subnormal_bits fmt)%Z.

Lemma shift_nonneg (t : Q) : (0 <= shift_of fmt t)%Z.
Proof. unfold shift_of. lia. Qed.

Lemma shift_mono (t1 t2 : Q) : t1 <= t2 -> (shift_of fmt t1 <= shift_of fmt t2)%Z.
Proof.
  intros H. unfold shift_of.
  pose proof (Z.log2_le_mono _ _ (Qfloor_resp_le _ _ H)). lia.
Qed.

Lemma pow2_shift_pos (t : Q) : (0 < 2 ^ shift_of fmt t)%Z.
Proof. apply Z.pow_pos_nonneg; [lia | apply shift_nonneg]. Qed.

Lemma units_upper (t : Q) : 0 <= t -> t < inject_Z (2 ^ (shift_of fmt t + precision fmt)).
Proof.
  intros Ht.
  pose proof (Qlt_floor t) as Hlt.
  assert (0 <= Qfloor t)%Z as Hn.
  { change 0%Z with (Qfloor 0). by apply Qfloor_resp_le. }
  assert (Qfloor t + 1 <= 2 ^ (shift_of fmt t + precision fmt))%Z as Hle.
  { destruct (Z.eq_dec (Qfloor t) 0%Z) as [-> | Hne].
    - assert (0 < 2 ^ (shift_of fmt t + precision fmt))%Z; [|lia].
      apply Z.pow_pos_nonneg; [lia|]. pose proof (shift_nonneg t). lia.
    - destruct (Z.log2_spec (Qfloor t)) as [_ Hup]; [lia|].
      assert (2 ^ Z.succ (Z.log2 (Qfloor t)) <= 2 ^ (shift_of fmt t + precision fmt))%Z; [|lia].
      apply Z.pow_le_mono_r; [lia|]. unfold shift_of. lia. }
  rewrite Zle_Qle in Hle. lra.
Qed.

Lemma units_lower (t : Q) :
  (0 < shift_of fmt t)%Z -> inject_Z (2 ^ (shift_of fmt t + precision fmt - 1)) <= t.
Proof.
  intros Hk. pose proof (Qfloor_le t) as Hfl.
  assert (Z.log2 (Qfloor t) = shift_of fmt t + precision fmt - 1)%Z as E.
  { unfold shift_of in *. lia. }
  assert (0 < Qfloor t)%Z as Hpos.
  { destruct (Z_lt_le_dec 0 (Qfloor t)) as [? | Hle]; [done|].
    pose proof (Z.log2_nonpos _ Hle). lia. }
  destruct (Z.log2_spec (Qfloor t) Hpos) as [Hlo _].
  rewrite E in Hlo. rewrite Zle_Qle in Hlo. lra.
Qed.

Lemma scaled_upper (t : Q) :
  0 <= t -> t / inject_Z (2 ^ shift_of fmt t) <= inject_Z (2 ^ precision fmt).
Proof.
  intros Ht. apply Qle_shift_div_r; [apply pow2_pos, pow2_shift_pos|].
  rewrite <- inject_Z_mult, <- Z.pow_add_r, Z.add_comm by (pose proof (shift_nonneg t); lia).
  apply Qlt_le_weak, units_upper, Ht.
Qed.

Lemma scaled_lower (t : Q) :
  (0 < shift_of fmt t)%Z ->
  inject_Z (2 ^ (precision fmt - 1)) <= t / inject_Z (2 ^ shift_of fmt t).
Proof.
  intros Hk. apply Qle_shift_div_l; [apply pow2_pos, pow2_shift_pos|].
  rewrite <- inject_Z_mult, <- Z.pow_add_r by lia.
  replace (precision fmt - 1 + shift_of fmt t)%Z
    with (shift_of fmt t + precision fmt - 1)%Z by lia.
  by apply units_lower.
Qed.

Lemma round_units_upper (t : Q) :
  0 <= t -> (round_units fmt t <= 2 ^ (shift_of fmt t + precision fmt))%Z.
Proof.
  intros Ht. unfold round_units. cbv zeta.
  pose proof (round_half_even_mono _ _ (scaled_upper t Ht)) as H.
  rewrite round_half_even_Z in H.
  rewrite Z.add_comm, Z.pow_add_r by (pose proof (shift_nonneg t); lia).
  apply Z.mul_le_mono_nonneg_r; [|exact H]. pose proof (pow2_shift_pos t). lia.
Qed.

Lemma round_units_lower (t : Q) :
  (0 < shift_of fmt t)%Z -> (2 ^ (shift_of fmt t + precision fmt - 1) <= round_units fmt t)%Z.
Proof.
  intros Hk. unfold round_units. cbv zeta.
  pose proof (round_half_even_mono _ _ (scaled_lower t Hk)) as H.
  rewrite round_half_even_Z in H.
  replace (shift_of fmt t + precision fmt - 1)%Z
    with (precision fmt - 1 + shift_of fmt t)%Z by lia.
  rewrite Z.pow_add_r by lia.
  apply Z.mul_le_mono_nonneg_r; [|exact H]. pose proof (pow2_shift_pos t). lia.
Qed.

Lemma round_units_mono (t1 t2 : Q) :
  0 <= t1 -> t1 <= t2 -> (round_units fmt t1 <= round_units fmt t2)%Z.
Proof.
  intros H1 H12.
  pose proof (shift_mono t1 t2 H12) as Hk.
  destruct (Z.eq_dec (shift_of fmt t1) (shift_of fmt t2)) as [E | Hne].
  - unfold round_units. cbv zeta. rewrite E.
    apply Z.mul_le_mono_nonneg_r; [pose proof (pow2_shift_pos t2); lia|].
    apply round_half_even_mono.
    apply Qmult_le_compat_r; [exact H12|].
    apply Qlt_le_weak, Qinv_lt_0_compat, pow2_pos, pow2_shift_pos.
  - pose proof (round_units_upper t1 H1) as Hup.
    assert (0 < shift_of fmt t2)%Z as Hk2 by (pose proof (shift_nonneg t1); lia).
    pose proof (round_units_lower t2 Hk2) as Hlo.
    assert (2 ^ (shift_of fmt t1 + precision fmt) <= 2 ^ (shift_of fmt t2 + precision fmt - 1))%Z;
      [|lia].
    apply Z.pow_le_mono_r; lia.
Qed.

(** The rounding error, in units: half a step, which is at most [t / 2^p]
    away from the subnormal range and a half there. *)
Lemma round_units_near (t : Q) :
  0 <= t ->
  Qabs (inject_Z (round_units fmt t) - t) <= t / inject_Z (2 ^ precision fmt) + (1 # 2).
Proof.
  intros Ht. unfold round_units. cbv zeta.
  set (k := shift_of fmt t).
  pose proof (pow2_shift_pos t) as Hkpos. fold k in Hkpos.
  pose proof (pow2_pos k Hkpos) as HK.
  assert (0 < inject_Z (2 ^ precision fmt)) as HP.
  { apply pow2_pos, Z.pow_pos_nonneg; lia. }
  destruct (round_half_even_near (t / inject_Z (2 ^ k))) as [Hlo Hhi].
  set (m := inject_Z (round_half_even (t / inject_Z (2 ^ k)))) in *.
  rewrite inject_Z_mult. fold m.
  set (K := inject_Z (2 ^ k)) in *.
  assert (t / K * K == t) as Ediv by (field; lra).
  assert (Qabs (m * K - t) <= K * (1 # 2)) as Hhalf.
  { apply Qabs_Qle_condition. split.
    - assert ((t / K - (1 # 2)) * K <= m * K) by (apply Qmult_le_compat_r; lra). lra.
    - assert (m * K <= (t / K + (1 # 2)) * K) by (apply Qmult_le_compat_r; lra). lra. }
  eapply Qle_trans; [exact Hhalf|].
  destruct (Z.eq_dec k 0%Z) as [E0 | Hne].
  - unfold K. rewrite E0. change (inject_Z (2 ^ 0)) with 1.
    assert (0 <= t / inject_Z (2 ^ precision fmt)) by (apply Qle_shift_div_l; lra). lra.
  - assert (0 < k)%Z as Hk by (pose proof (shift_nonneg t); unfold k in *; lia).
    pose proof (units_lower t Hk) as Hlow. fold k in Hlow.
    replace (k + precision fmt - 1)%Z with (k + (precision fmt - 1))%Z in Hlow by lia.
    rewrite Z.pow_add_r, inject_Z_mult in Hlow by lia. fold K in Hlow.
    assert (inject_Z (2 ^ precision fmt) == 2 * inject_Z (2 ^ (precision fmt - 1))) as EP.
    { rewrite <- (inject_Z_mult 2). apply inject_Z_injective.
      rewrite <- Z.pow_succ_r by lia. f_equal. lia. }
    assert (K * (1 # 2) <= t / inject_Z (2 ^ precision fmt)); [|lra].
    apply Qle_shift_div_l; [exact HP|]. rewrite EP. lra.
Qed.
End Rounding.

Lemma num_le_trans (a b c : num) : num_le a b -> num_le b c -> num_le a c.
Proof.
  destruct a, b, c; simpl; try tauto. apply Qcle_trans.
Qed.

Lemma num_le_opp (a b : num) : num_le a b -> num_le (num_opp b) (num_opp a).
Proof.
  destruct a, b; simpl; try tauto. apply Qcopp_le_compat.
Qed.

Lemma num_le_antisym (a b : num) : num_le a b -> num_le b a -> a = b.
Proof.
  destruct a, b; simpl; try tauto. intros ? ?. f_equal. by apply Qcle_antisym.
Qed.

Lemma Q2Qc_le (a b : Q) : a <= b -> (Q2Qc a <= Q2Qc b)%Qc.
Proof. intros H. unfold Qcle. simpl. by rewrite !Qred_correct. Qed.

Section Rounding_numbers.
Variable fmt : Format.
Hypothesis precision_pos : (1 <= precision fmt)%Z.
Hypothesis subnormal_bits_nonneg : (0 <= subnormal_bits fmt)%Z.
Hypothesis overflow_exp_nonneg : (0 <= overflow_exp fmt)%Z.

Lemma unit_pos : 0 < units_of fmt.
Proof. apply pow2_pos, Z.pow_pos_nonneg; lia. Qed.

Lemma round_nonneg_mono (q1 q2 : Q) :
  0 <= q1 -> q1 <= q2 -> num_le (round_nonneg fmt q1) (round_nonneg fmt q2).
Proof.
  intros H1 H12. unfold round_nonneg. cbv zeta.
  pose proof unit_pos as HU.
  assert (0 <= q1 * (units_of fmt)) as Ht1 by (apply Qmult_le_0_compat; lra).
  assert (q1 * (units_of fmt) <= q2 * (units_of fmt)) as Ht by (apply Qmult_le_compat_r; lra).
  pose proof (round_units_mono fmt precision_pos _ _ Ht1 Ht) as Hr.
  destruct (Z.leb_spec (2 ^ (overflow_exp fmt + subnormal_bits fmt)) (round_units fmt (q2 * (units_of fmt))));
    destruct (Z.leb_spec (2 ^ (overflow_exp fmt + subnormal_bits fmt)) (round_units fmt (q1 * (units_of fmt))));
    simpl; try done; try lia.
  apply Q2Qc_le. apply Qmult_le_compat_r; [by rewrite <- Zle_Qle|].
  apply Qlt_le_weak, Qinv_lt_0_compat, HU.
Qed.

Lemma round_nonneg_zero : round_nonneg fmt 0 = Fin 0%Qc.
Proof.
  unfold round_nonneg. cbv zeta.
  assert (round_units fmt (0 * units_of fmt) = 0%Z) as ->.
  { rewrite <- (round_units_zero fmt precision_pos) at 2. apply round_units_comp. ring. }
  pose proof (Z.pow_pos_nonneg 2 (overflow_exp fmt + subnormal_bits fmt)) as Hpos.
  destruct (Z.leb_spec (2 ^ (overflow_exp fmt + subnormal_bits fmt)) 0) as [Hle | _]; [lia|].
  f_equal. apply Qc_is_canon. unfold Q2Qc. cbn [this]. rewrite !Qred_correct.
  change (inject_Z 0) with 0. unfold Qdiv. ring.
Qed.

Lemma round_nonneg_sign (q : Q) : 0 <= q -> num_le (Fin 0%Qc) (round_nonneg fmt q).
Proof.
  intros Hq. rewrite <- round_nonneg_zero. apply round_nonneg_mono; [lra | exact Hq].
Qed.

Lemma Qc_opp_this (q : Qc) : ((- q)%Qc : Q) == - (q : Q).
Proof. simpl. apply Qred_correct. Qed.

Lemma round_to_mono (q1 q2 : Qc) : (q1 <= q2)%Qc -> num_le (round_to fmt q1) (round_to fmt q2).
Proof.
  intros H12. unfold round_to.
  assert ((q1 : Q) <= (q2 : Q)) as H12' by exact H12.
  case_bool_decide as H1; case_bool_decide as H2.
  - apply num_le_opp, round_nonneg_mono.
    + assert ((q2 : Q) < 0) by exact H2. lra.
    + lra.
  - apply (num_le_trans _ (Fin 0%Qc)).
    + rewrite <- (Qcopp_involutive 0). change (Fin (- - 0)%Qc) with (num_opp (Fin (- 0)%Qc)).
      apply num_le_opp. change (- 0)%Qc with 0%Qc.
      apply round_nonneg_sign.
      assert ((q1 : Q) < 0) by exact H1. lra.
    + apply round_nonneg_sign. apply Qcnot_lt_le in H2. exact H2.
  - exfalso. apply H1. eapply Qcle_lt_trans; [exact H12 | exact H2].
  - apply round_nonneg_mono; [|exact H12']. apply Qcnot_lt_le in H1. exact H1.
Qed.

Lemma round_to_not_nan (q : Qc) : round_to fmt q <> NaN.
Proof.
  intros E. pose proof (round_to_mono q q (Qcle_refl q)) as H. by rewrite E in H.
Qed.

(** A number between two numbers that round to finite values rounds to a
    finite value between them. *)
Lemma round_to_between (lo q hi lo' hi' : Qc) :
  (lo <= q)%Qc -> (q <= hi)%Qc ->
  round_to fmt lo = Fin lo' -> round_to fmt hi = Fin hi' ->
  exists r, round_to fmt q = Fin r /\ (lo' <= r)%Qc /\ (r <= hi')%Qc.
Proof.
  intros Hlo Hhi Elo Ehi.
  pose proof (round_to_mono _ _ Hlo) as H1. pose proof (round_to_mono _ _ Hhi) as H2.
  rewrite Elo in H1. rewrite Ehi in H2.
  destruct (round_to fmt q) as [r | | |]; simpl in *; try tauto. eauto.
Qed.

Lemma round_nonneg_grid (q : Q) (r : Qc) :
  round_nonneg fmt q = Fin r -> exists z : Z, (r : Q) == inject_Z z / (units_of fmt).
Proof.
  unfold round_nonneg. cbv zeta.
  destruct (Z.leb _ _); [done|]. intros [= <-].
  eexists. unfold Q2Qc. cbn [this]. apply Qred_correct.
Qed.

Lemma round_to_grid (q r : Qc) :
  round_to fmt q = Fin r -> exists z : Z, (r : Q) == inject_Z z / (units_of fmt).
Proof.
  unfold round_to. case_bool_decide.
  - destruct (round_nonneg fmt (- q)) as [r' | | |] eqn:E; cbn [num_opp]; try done.
    intros [= <-]. destruct (round_nonneg_grid _ _ E) as [z Hz].
    exists (- z)%Z. rewrite Qc_opp_this, Hz, inject_Z_opp. unfold Qdiv. ring.
  - apply round_nonneg_grid.
Qed.

Lemma round_nonneg_near (q : Q) (r : Qc) :
  0 <= q -> round_nonneg fmt q = Fin r ->
  Qabs ((r : Q) - q) <= q / inject_Z (2 ^ precision fmt) + (1 # 2) / (units_of fmt).
Proof.
  intros Hq. unfold round_nonneg. cbv zeta.
  destruct (Z.leb _ _); [done|]. intros [= <-].
  pose proof unit_pos as HU.
  assert (0 < inject_Z (2 ^ precision fmt)) as HP.
  { apply pow2_pos, Z.pow_pos_nonneg; lia. }
  assert (0 <= q * (units_of fmt)) as Ht by (apply Qmult_le_0_compat; lra).
  pose proof (round_units_near fmt precision_pos (q * (units_of fmt)) Ht) as Hnear.
  set (R := inject_Z (round_units fmt (q * (units_of fmt)))) in *.
  unfold Q2Qc. cbn [this]. rewrite Qred_correct.
  assert (R / (units_of fmt) - q == (R - q * (units_of fmt)) / (units_of fmt)) as -> by (field; lra).
  unfold Qdiv at 1. rewrite Qabs_Qmult, (Qabs_pos (/ (units_of fmt)))
    by (apply Qlt_le_weak, Qinv_lt_0_compat, HU).
  assert (q / inject_Z (2 ^ precision fmt) + (1 # 2) / (units_of fmt)
          == (q * (units_of fmt) / inject_Z (2 ^ precision fmt) + (1 # 2)) * / (units_of fmt)) as -> by (field; lra).
  apply Qmult_le_compat_r; [exact Hnear|].
  apply Qlt_le_weak, Qinv_lt_0_compat, HU.
Qed.

(** The rounding error of a number that rounds to a finite value. *)
Lemma round_to_near (q r : Qc) :
  round_to fmt q = Fin r ->
  Qabs ((r : Q) - (q : Q)) <= Qabs (q : Q) / inject_Z (2 ^ precision fmt) + (1 # 2) / (units_of fmt).
Proof.
  unfold round_to. case_bool_decide as Hneg.
  - destruct (round_nonneg fmt (- q)) as [r' | | |] eqn:E; cbn [num_opp]; try done.
    intros [= <-].
    assert ((q : Q) < 0) as Hq by exact Hneg.
    pose proof (Qc_opp_this r') as Er.
    assert (0 <= - (q : Q)) as Hq' by lra.
    pose proof (round_nonneg_near _ _ Hq' E) as Hnear.
    rewrite Er.
    rewrite (Qabs_neg (q : Q)) by lra.
    assert (- (r' : Q) - (q : Q) == - ((r' : Q) - - (q : Q))) as -> by ring.
    by rewrite Qabs_opp.
  - intros E. apply Qcnot_lt_le in Hneg.
    assert (0 <= (q : Q)) as Hq by exact Hneg.
    rewrite (Qabs_pos (q : Q)) by exact Hq.
    by apply round_nonneg_near.
Qed.
End Rounding_numbers.

End Floats.

(** ** The 32-bit and the 64-bit floats *)

Lemma num_eqb_eq (a b : num) : num_eqb a b = true → a = b.
Proof.
  destruct a as [x| | |], b as [y| | |]; simpl; try done.
  intros H. f_equal. apply Qc_is_canon. by apply Qeq_bool_eq.
Qed.

Lemma binary32_valid :
  (1 ≤ precision binary32)%Z ∧ (0 ≤ subnormal_bits binary32)%Z ∧ (0 ≤ overflow_exp binary32)%Z.
Proof. by vm_compute. Qed.

Lemma binary64_valid :
  (1 ≤ precision binary64)%Z ∧ (0 ≤ subnormal_bits binary64)%Z ∧ (0 ≤ overflow_exp binary64)%Z.
Proof. by vm_compute. Qed.

Lemma float32_mono (q1 q2 : Qc) : q1 ≤ q2 → num_le (float32 q1) (float32 q2).
Proof.
  destruct binary32_valid as (Hp & Hs & Ho). by apply round_to_mono.
Qed.

Lemma float32_not_nan (q : Qc) : float32 q ≠ NaN.
Proof.
  destruct binary32_valid as (Hp & Hs & Ho). by apply round_to_not_nan.
Qed.

Lemma float32_zero : float32 0 = Fin 0.
Proof. by apply num_eqb_eq. Qed.

Lemma float32_one : float32 1 = Fin 1.
Proof. by apply num_eqb_eq. Qed.

Lemma float32_between (lo q hi lo' hi' : Qc) :
  lo ≤ q → q ≤ hi → float32 lo = Fin lo' → float32 hi = Fin hi' →
  ∃ r, float32 q = Fin r ∧ lo' ≤ r ∧ r ≤ hi'.
Proof.
  destruct binary32_valid as (Hp & Hs & Ho). by apply round_to_between.
Qed.

(** A 32-bit float is a multiple of 2^-149. *)
Lemma float32_grid (q r : Qc) :
  float32 q = Fin r → ∃ z : Z, (r == inject_Z z / inject_Z (2 ^ 149))%Q.
Proof.
  intros E. exact (round_to_grid binary32 q r E).
Qed.

(** The error of rounding to a 32-bit float: at most [|q| * 2^-24 + 2^-150]. *)
Lemma float32_near (q r : Qc) :
  float32 q = Fin r →
  (Qabs (r - q) <= Qabs q * (1 # 2 ^ 24) + (1 # 2 ^ 150))%Q.
Proof.
  intros E. destruct binary32_valid as (Hp & Hs & Ho).
  pose proof (round_to_near binary32 Hp Hs q r E) as H.
  assert (Qabs q / inject_Z (2 ^ precision binary32) + (1 # 2) / units_of binary32
          == Qabs q * (1 # 2 ^ 24) + (1 # 2 ^ 150))%Q as E'; [|by rewrite <- E'].
  unfold Qdiv. apply Qplus_comp; [apply Qmult_comp; [reflexivity|] |]; by vm_compute.
Qed.


Lemma float64_near (q r : Qc) :
  float64 q = Fin r →
  (Qabs (r - q) <= Qabs q * (1 # 2 ^ 53) + (1 # 2 ^ 1075))%Q.
Proof.
  intros E. destruct binary64_valid as (Hp & Hs & Ho).
  pose proof (round_to_near binary64 Hp Hs q r E) as H.
  assert (Qabs q / inject_Z (2 ^ precision binary64) + (1 # 2) / units_of binary64
          == Qabs q * (1 # 2 ^ 53) + (1 # 2 ^ 1075))%Q as E'; [|by rewrite <- E'].
  unfold Qdiv. apply Qplus_comp; [apply Qmult_comp; [reflexivity|] |]; by vm_compute.
Qed.

(** Numbers other than NaN, and their order. *)
Lemma num_le_refl (a : num) : is_nan a = false → num_le a a.
Proof. destruct a; simpl; intros; first [done | apply Qcle_refl]. Qed.


Lemma num_gtb_le (a b : num) : num_gtb a b = true → num_le b a.
Proof.
  destruct a as [x| | |], b as [y| | |]; simpl; try done.
  intros H%bool_decide_eq_true. by apply Qclt_le_weak.
Qed.

Lemma num_gtb_false_le (a b : num) :
  is_nan a = false → is_nan b = false → num_gtb a b = false → num_le a b.
Proof.
  destruct a as [x| | |], b as [y| | |]; simpl; try done.
  intros _ _ H%bool_decide_eq_false. by apply Qcnot_lt_le.
Qed.

Lemma float32_nan_free (q : Qc) : is_nan (float32 q) = false.
Proof. pose proof (float32_not_nan q). by destruct (float32 q). Qed.


Lemma f32_sub_Fin (x y : Qc) : f32_sub (Fin x) (Fin y) = float32 (x - y).
Proof. reflexivity. Qed.

Lemma f32_div_Fin (x y : Qc) : y ≠ 0 → f32_div (Fin x) (Fin y) = float32 (x / y).
Proof. intros Hy. unfold f32_div. simpl. by rewrite bool_decide_false. Qed.

Lemma Qcminus_nonneg (lo x : Qc) : lo ≤ x → 0 ≤ x - lo.
Proof. intros H. by apply Qcle_minus_iff in H. Qed.

Lemma this_minus (a b : Qc) : (this (a - b) == this a - this b)%Q.
Proof.
  unfold Qcminus, Qcplus, Qcopp, Q2Qc. cbn [this]. rewrite Qred_correct.
  apply Qplus_comp; [reflexivity | apply Qred_correct].
Qed.


Lemma this_mult (a b : Qc) : (this (a * b) == this a * this b)%Q.
Proof. unfold Qcmult, Q2Qc. cbn [this]. apply Qred_correct. Qed.

Lemma this_Q2Qc (a : Q) : (this (Q2Qc a) == a)%Q.
Proof. unfold Q2Qc. cbn [this]. apply Qred_correct. Qed.

(** Two different 32-bit floats are at least 2^-149 apart, and their
    difference does not round to zero. *)
Lemma float32_gap (p q lo hi : Qc) :
  float32 p = Fin lo → float32 q = Fin hi → lo < hi →
  (1 # 2 ^ 149 <= hi - lo)%Q.
Proof.
  intros Ep Eq Hlt.
  destruct (float32_grid _ _ Ep) as [zl El], (float32_grid _ _ Eq) as [zh Eh].
  assert ((lo : Q) < (hi : Q))%Q as Hlt' by exact Hlt.
  rewrite El, Eh in Hlt' |- *.
  assert (0 < inject_Z (2 ^ 149))%Q as HU by (by vm_compute).
  assert (zl < zh)%Z as Hz.
  { rewrite Zlt_Qlt.
    apply (Qmult_lt_r _ _ (/ inject_Z (2 ^ 149))); [by apply Qinv_lt_0_compat|].
    exact Hlt'. }
  assert (inject_Z zl + 1 <= inject_Z zh)%Q as Hz'.
  { change 1%Q with (inject_Z 1). rewrite <- inject_Z_plus, <- Zle_Qle. lia. }
  assert (inject_Z zh / inject_Z (2 ^ 149) - inject_Z zl / inject_Z (2 ^ 149)
          == (inject_Z zh - inject_Z zl) * (1 # 2 ^ 149))%Q as ->.
  { unfold Qdiv. assert (/ inject_Z (2 ^ 149) == 1 # 2 ^ 149)%Q as -> by (by vm_compute). ring. }
  assert (1 <= inject_Z zh - inject_Z zl)%Q by lra.
  assert (1 * (1 # 2 ^ 149) <= (inject_Z zh - inject_Z zl) * (1 # 2 ^ 149))%Q
    by (apply Qmult_le_compat_r; [done | by vm_compute]).
  lra.
Qed.

Lemma float32_least_positive : float32 (Q2Qc (1 # 2 ^ 149)) = Fin (Q2Qc (1 # 2 ^ 149)).
Proof. by apply num_eqb_eq. Qed.

Lemma f32_sub_pos (p q lo hi d : Qc) :
  float32 p = Fin lo → float32 q = Fin hi → lo < hi →
  f32_sub (Fin hi) (Fin lo) = Fin d → 0 < d.
Proof.
  intros Ep Eq Hlt Ed. rewrite f32_sub_Fin in Ed.
  pose proof (float32_gap _ _ _ _ Ep Eq Hlt) as Hgap.
  assert (Q2Qc (1 # 2 ^ 149) ≤ hi - lo) as Hle.
  { unfold Qcle. rewrite this_Q2Qc, this_minus. exact Hgap. }
  pose proof (float32_mono _ _ Hle) as Hmono.
  rewrite float32_least_positive, Ed in Hmono. simpl in Hmono.
  eapply Qclt_le_trans; [|exact Hmono]. by vm_compute.
Qed.

(** ** The shuffle *)

Section Shuffle.
Context {A : Type}.
Implicit Types (array : list A) (random : nat → Qc).

Lemma swap_length array left right : length (swap array left right) = length array.
Proof.
  unfold swap. destruct (array !! left), (array !! right); auto.
  by rewrite !length_insert.
Qed.

Lemma transpose_inj left right : Inj (=) (=) (transpose left right).
Proof. intros i j. unfold transpose. repeat case_decide; congruence. Qed.

Lemma swap_lookup array left right i :
  (left < length array)%nat → (right < length array)%nat →
  swap array left right !! i = array !! transpose left right i.
Proof.
  intros Hl Hr. unfold swap, transpose.
  destruct (lookup_lt_is_Some_2 array left Hl) as [l El].
  destruct (lookup_lt_is_Some_2 array right Hr) as [r Er].
  rewrite El, Er, !list_lookup_insert, !length_insert.
  repeat case_decide; destruct_and?; subst; try congruence; try lia.
  all: exfalso; intuition lia.
Qed.

Lemma swap_Permutation array left right : swap array left right ≡ₚ array.
Proof.
  destruct (decide (left < length array)%nat) as [Hl|Hl];
    [destruct (decide (right < length array)%nat) as [Hr|Hr]|].
  - apply Permutation_inj. split; [apply swap_length|].
    exists (transpose left right). split; [apply transpose_inj|].
    intros i. by apply swap_lookup.
  - unfold swap. rewrite (lookup_ge_None_2 array right) by lia.
    by destruct (array !! left).
  - unfold swap. by rewrite (lookup_ge_None_2 array left) by lia.
Qed.

Lemma shuffle_from_Permutation counter random array :
  shuffle_from counter random array ≡ₚ array.
Proof.
  revert random array. induction counter as [|counter IH]; intros random array; simpl.
  - reflexivity.
  - rewrite IH. apply swap_Permutation.
Qed.

Lemma shuffle_Permutation random array : shuffle random array ≡ₚ array.
Proof. apply shuffle_from_Permutation. Qed.

Lemma shuffle_length random array : length (shuffle random array) = length array.
Proof. apply Permutation_length, shuffle_Permutation. Qed.

End Shuffle.

(** A draw of [Math.random] picks an index below [counter], although the
    product is rounded: every [swap] of the shuffle exchanges two elements
    of the array. *)
Lemma random_index_lt (r : Qc) (counter : nat) :
  0 ≤ r → r ≤ Q2Qc (9007199254740991 # 9007199254740992) → (0 < counter)%nat →
  (random_index r counter < counter)%nat.
Proof.
  intros Hr0 Hr1 Hc. unfold random_index.
  destruct (float64 (r * Qc_of_Z (Z.of_nat counter))) as [p| | |] eqn:E; try lia.
  apply float64_near in E.
  set (c := inject_Z (Z.of_nat counter)) in *.
  assert (1 <= c)%Q as Hc1.
  { unfold c. change 1%Q with (inject_Z 1). rewrite <- Zle_Qle. lia. }
  assert (this (r * Qc_of_Z (Z.of_nat counter)) == r * c)%Q as Eq.
  { rewrite this_mult. reflexivity. }
  rewrite Eq in E.
  assert (0 <= r)%Q as Hr0' by exact Hr0.
  assert (r <= 9007199254740991 # 9007199254740992)%Q as Hr1'.
  { unfold Qcle in Hr1. by rewrite this_Q2Qc in Hr1. }
  assert (0 <= r * c)%Q as Hq0 by (apply Qmult_le_0_compat; lra).
  assert (r * c <= (9007199254740991 # 9007199254740992) * c)%Q as Hq1
    by (apply Qmult_le_compat_r; lra).
  rewrite (Qabs_pos (r * c)) in E by done.
  pose proof (Qle_Qabs (p - r * c)) as Habs.
  assert (p < c)%Q as Hlt.
  { revert E Habs Hq1 Hq0 Hc1. generalize (r * c)%Q (Qabs (p - r * c)) (this p) c.
    intros q a p' c'.
    replace (1 # 2 ^ 53)%Q with (1 # 9007199254740992)%Q by reflexivity.
    assert ((1 # 2 ^ 1075) <= 1 # 2 ^ 110)%Q as Hsmall by (by vm_compute).
    revert Hsmall. generalize (1 # 2 ^ 1075)%Q. intros eta Heta.
    replace (1 # 2 ^ 110)%Q with (1 # 1298074214633706907132624082305024)%Q in Heta by reflexivity.
    lra. }
  assert (Qfloor p < Z.of_nat counter)%Z; [|lia].
  rewrite Zlt_Qlt. eapply Qle_lt_trans; [apply Qfloor_le|]. exact Hlt.
Qed.

(** With the draws of [Math.random] the shuffle only ever swaps inside the
    array. *)
Lemma shuffle_swaps_in_range (random : nat → Qc) (counter len : nat) :
  unit_draws random → (counter ≤ len)%nat → swaps_in_range counter random len.
Proof.
  revert random. induction counter as [|counter IH]; intros random Hrandom Hlen; simpl.
  - exact I.
  - split.
    + split; [lia|].
      destruct (Hrandom O) as [H0 H1].
      pose proof (random_index_lt (random O) (S counter) H0 H1 ltac:(lia)). lia.
    + apply IH; [|lia]. intros i. apply (Hrandom (S i)).
Qed.

(** ** Minimum and maximum of a tensor without NaN *)

Section Reductions_facts.
Context `{backend : Backend}.
Implicit Types (l : list num) (m x : num).

Lemma max_step_cases m x :
  is_nan m = false → is_nan x = false →
  (max_step m x = x ∧ num_le m x) ∨ (max_step m x = m ∧ num_le x m).
Proof.
  intros Hm Hx. unfold max_step. rewrite Hx. simpl.
  destruct (num_gtb x m) eqn:E.
  - left. split; [done|]. by apply num_gtb_le.
  - right. split; [done|]. by apply num_gtb_false_le.
Qed.

Lemma min_step_cases m x :
  is_nan m = false → is_nan x = false →
  (min_step m x = x ∧ num_le x m) ∨ (min_step m x = m ∧ num_le m x).
Proof.
  intros Hm Hx. unfold min_step, num_ltb. rewrite Hx. simpl.
  destruct (num_gtb m x) eqn:E.
  - left. split; [done|]. by apply num_gtb_le.
  - right. split; [done|]. by apply num_gtb_false_le.
Qed.

Lemma fold_max_step_greatest l m :
  is_nan m = false → nan_free l →
  let m' := fold_left max_step l m in
  (m' = m ∨ m' ∈ l) ∧ num_le m m' ∧ ∀ x, x ∈ l → num_le x m'.
Proof.
  revert m. induction l as [|a l IH]; intros m Hm Hl; simpl.
  - split; [by left|]. split; [by apply num_le_refl|]. by intros x ?%elem_of_nil.
  - assert (is_nan a = false) as Ha by (apply Hl; by left).
    assert (nan_free l) as Hl' by (intros x ?; apply Hl; by right).
    destruct (max_step_cases m a Hm Ha) as [[-> Hle] | [-> Hle]].
    + destruct (IH a Ha Hl') as (Hin & Hge & Hub).
      split; [right; destruct Hin as [-> | ?]; [by left | by right]|].
      split; [by eapply num_le_trans|].
      intros x [-> | ?]%elem_of_cons; auto.
    + destruct (IH m Hm Hl') as (Hin & Hge & Hub).
      split; [destruct Hin as [-> | ?]; [by left | right; by right]|].
      split; [done|].
      intros x [-> | ?]%elem_of_cons; [by eapply num_le_trans | auto].
Qed.

Lemma fold_min_step_least l m :
  is_nan m = false → nan_free l →
  let m' := fold_left min_step l m in
  (m' = m ∨ m' ∈ l) ∧ num_le m' m ∧ ∀ x, x ∈ l → num_le m' x.
Proof.
  revert m. induction l as [|a l IH]; intros m Hm Hl; simpl.
  - split; [by left|]. split; [by apply num_le_refl|]. by intros x ?%elem_of_nil.
  - assert (is_nan a = false) as Ha by (apply Hl; by left).
    assert (nan_free l) as Hl' by (intros x ?; apply Hl; by right).
    destruct (min_step_cases m a Hm Ha) as [[-> Hle] | [-> Hle]].
    + destruct (IH a Ha Hl') as (Hin & Hge & Hlb).
      split; [right; destruct Hin as [-> | ?]; [by left | by right]|].
      split; [by eapply num_le_trans|].
      intros x [-> | ?]%elem_of_cons; auto.
    + destruct (IH m Hm Hl') as (Hin & Hge & Hlb).
      split; [destruct Hin as [-> | ?]; [by left | right; by right]|].
      split; [done|].
      intros x [-> | ?]%elem_of_cons; [by eapply num_le_trans | auto].
Qed.

Lemma reduce_max_greatest l : l ≠ [] → nan_free l → is_greatest (reduce_max l) l.
Proof.
  destruct l as [|a l]; [done|]. intros _ Hl. unfold reduce_max.
  destruct (fold_max_step_greatest (a :: l) a) as (Hin & _ & Hub);
    [apply Hl; by left | done |].
  split; [|exact Hub]. destruct Hin as [-> | ?]; [by left | done].
Qed.

Lemma reduce_min_least l : l ≠ [] → nan_free l → is_least (reduce_min l) l.
Proof.
  destruct l as [|a l]; [done|]. intros _ Hl. unfold reduce_min.
  destruct (fold_min_step_least (a :: l) a) as (Hin & _ & Hlb);
    [apply Hl; by left | done |].
  split; [|exact Hlb]. destruct Hin as [-> | ?]; [by left | done].
Qed.
End Reductions_facts.

Lemma is_least_unique (m m' : num) (l : list num) : is_least m l → is_least m' l → m = m'.
Proof. intros [Hin Hlb] [Hin' Hlb']. apply num_le_antisym; auto. Qed.

Lemma is_greatest_unique (m m' : num) (l : list num) :
  is_greatest m l → is_greatest m' l → m = m'.
Proof. intros [Hin Hub] [Hin' Hub']. apply num_le_antisym; auto. Qed.

Lemma is_least_Permutation (m : num) (l l' : list num) : l ≡ₚ l' → is_least m l → is_least m l'.
Proof.
  intros HP [Hin Hlb]. split; [by rewrite <- HP|].
  intros x Hx. apply Hlb. by rewrite HP.
Qed.

Lemma is_greatest_Permutation (m : num) (l l' : list num) :
  l ≡ₚ l' → is_greatest m l → is_greatest m l'.
Proof.
  intros HP [Hin Hub]. split; [by rewrite <- HP|].
  intros x Hx. apply Hub. by rewrite HP.
Qed.

Lemma nan_free_Permutation (l l' : list num) : l ≡ₚ l' → nan_free l → nan_free l'.
Proof. intros HP Hl x Hx. apply Hl. by rewrite HP. Qed.

Lemma nan_free_float32 (vals : list Qc) : nan_free (map float32 vals).
Proof.
  intros x Hx. apply list_elem_of_In, in_map_iff in Hx as (q & <- & _).
  apply float32_nan_free.
Qed.

Section Order.
Context `{backend : Backend}.

Lemma reduce_min_Permutation (l l' : list num) :
  nan_free l → l ≡ₚ l' → reduce_min l = reduce_min l'.
Proof.
  intros Hl HP. destruct l as [|a l].
  - apply Permutation_nil in HP. by subst.
  - assert (l' ≠ []) as Hnil'.
    { intros ->. symmetry in HP. by apply Permutation_nil in HP. }
    eapply is_least_unique; [|apply reduce_min_least; [done|by eapply nan_free_Permutation]].
    eapply is_least_Permutation; [exact HP|]. by apply reduce_min_least.
Qed.

Lemma reduce_max_Permutation (l l' : list num) :
  nan_free l → l ≡ₚ l' → reduce_max l = reduce_max l'.
Proof.
  intros Hl HP. destruct l as [|a l].
  - apply Permutation_nil in HP. by subst.
  - assert (l' ≠ []) as Hnil'.
    { intros ->. symmetry in HP. by apply Permutation_nil in HP. }
    eapply is_greatest_unique; [|apply reduce_max_greatest; [done|by eapply nan_free_Permutation]].
    eapply is_greatest_Permutation; [exact HP|]. by apply reduce_max_greatest.
Qed.
End Order.

(** ** The normalization formula on 32-bit floats *)

Lemma num_eqb_neq (a b : num) : num_eqb a b = false → a ≠ b.
Proof.
  intros H ->. destruct b as [x| | |]; simpl in H; try done.
  by rewrite (proj2 (Qeq_bool_iff x x) (Qeq_refl x)) in H.
Qed.

Lemma is_finiteb_finite (a : num) : is_finiteb a = true → is_finite a.
Proof. destruct a as [q| | |]; simpl; try done. intros _. by exists q. Qed.

Lemma f32_sub_self_finite (x : num) : is_finite (f32_sub x x) → is_finite x.
Proof. destruct x as [q| | |]; intros [r E]; try done. by exists q. Qed.

Lemma Qcdiv_self (q : Qc) : q ≠ 0 → q / q = 1.
Proof. intros H. unfold Qcdiv. by apply Qcmult_inv_r. Qed.

Lemma Qcdiv_unit (s d : Qc) : 0 ≤ s → s ≤ d → 0 < d → 0 ≤ s / d ∧ s / d ≤ 1.
Proof.
  intros Hs Hsd Hd. pose proof (Qcinv_pos _ Hd) as Hinv. split.
  - unfold Qcdiv. rewrite <- (Qcmult_0_l (/ d)).
    apply Qcmult_le_compat_r; [done | by apply Qclt_le_weak].
  - rewrite <- (Qcdiv_self d) by (by apply not_eq_sym, Qclt_not_eq).
    unfold Qcdiv. apply Qcmult_le_compat_r; [done | by apply Qclt_le_weak].
Qed.

Lemma f32_div_unit_interval (s d : Qc) :
  0 ≤ s → s ≤ d → 0 < d → in_unit_interval (f32_div (Fin s) (Fin d)).
Proof.
  intros Hs Hsd Hd.
  rewrite f32_div_Fin by (by apply not_eq_sym, Qclt_not_eq).
  destruct (Qcdiv_unit s d Hs Hsd Hd) as [H0 H1].
  destruct (float32_between 0 (s / d) 1 0 1 H0 H1 float32_zero float32_one)
    as (r & E & Hr0 & Hr1).
  exists r. by rewrite E.
Qed.




(** Equal bounds: the normalized value is NaN. *)
Lemma normalize_constant (v : num) : normalize v v v = NaN.
Proof.
  unfold normalize, f32_sub, f32_div. destruct v as [c| | |]; try done.
  simpl. assert (c + - c = 0) as -> by apply Qcplus_opp_r.
  rewrite float32_zero. reflexivity.
Qed.

(** ** [convertToTensor] *)

Lemma tensor2d_column (vals : list Qc) :
  tensor2d vals [length vals; 1%nat]
  = Returned {| shape := [length vals; 1%nat]; values := map float32 vals |}.
Proof.
  unfold tensor2d, sizeFromShape. simpl.
  by rewrite Nat.mul_1_r, Nat.eqb_refl.
Qed.

Section ConvertToTensor_facts.
Context `{backend : Backend}.
Implicit Types (random : nat → Qc) (data : list CleanRecord) (f : Feature).

(** [convertToTensor] never throws; this is what it returns. *)
Lemma convertToTensor_closed_form random data :
  convertToTensor random data =
  let shuffled := shuffle random data in
  let xs := map float32 (map horsepower shuffled) in
  let ys := map float32 (map mpg shuffled) in
  (shuffled,
   Returned
     {| inputs := {| shape := [length data; 1%nat];
                     values := map (λ x, normalize x (reduce_min xs) (reduce_max xs)) xs |};
        labels := {| shape := [length data; 1%nat];
                     values := map (λ y, normalize y (reduce_min ys) (reduce_max ys)) ys |};
        inputMax := scalar (reduce_max xs);
        inputMin := scalar (reduce_min xs);
        labelMax := scalar (reduce_max ys);
        labelMin := scalar (reduce_min ys) |}).
Proof.
  unfold convertToTensor, tidy. cbv zeta. f_equal.
  rewrite !tensor2d_column.
  unfold tensor_sub, tensor_div, tensor_max, tensor_min.
  cbn [mbind completion_bind shape values map scalar broadcast2].
  rewrite !length_map, shuffle_length, !map_map. reflexivity.
Qed.

(** The same, feature by feature, with the bounds taken over the data as
    they were given: the shuffle does not change them. *)
Lemma convertToTensor_feature random data :
  ∃ r,
    convertToTensor random data = (shuffle random data, Returned r)
    ∧ ∀ f,
        let column := map (stored f) data in
        normalized f r =
          {| shape := [length data; 1%nat];
             values := map (λ d, normalize (stored f d) (reduce_min column) (reduce_max column))
                           (shuffle random data) |}
        ∧ lower_bound f r = scalar (reduce_min column)
        ∧ upper_bound f r = scalar (reduce_max column).
Proof.
  rewrite convertToTensor_closed_form. cbv zeta.
  eexists. split; [reflexivity|].
  pose proof (shuffle_Permutation random data) as HP.
  assert (∀ g : CleanRecord → Qc,
            map float32 (map g (shuffle random data)) ≡ₚ map (λ d, float32 (g d)) data) as HPg.
  { intros g. rewrite map_map. by apply Permutation_map. }
  assert (∀ g : CleanRecord → Qc,
            reduce_min (map float32 (map g (shuffle random data)))
            = reduce_min (map (λ d, float32 (g d)) data)) as Emin.
  { intros g. apply reduce_min_Permutation; [apply nan_free_float32 | apply HPg]. }
  assert (∀ g : CleanRecord → Qc,
            reduce_max (map float32 (map g (shuffle random data)))
            = reduce_max (map (λ d, float32 (g d)) data)) as Emax.
  { intros g. apply reduce_max_Permutation; [apply nan_free_float32 | apply HPg]. }
  intros [|]; cbn [normalized lower_bound upper_bound inputs labels inputMin inputMax
                   labelMin labelMax];
    rewrite Emin, Emax, !map_map; repeat split; reflexivity.
Qed.
End ConvertToTensor_facts.

Lemma elem_of_map_2 {A B : Type} (g : A → B) (l : list A) (a : A) : a ∈ l → g a ∈ map g l.
Proof. intros Ha. apply list_elem_of_In, in_map, list_elem_of_In, Ha. Qed.

Lemma elem_of_map_1 {A B : Type} (g : A → B) (l : list A) (b : B) :
  b ∈ map g l → ∃ a, b = g a ∧ a ∈ l.
Proof.
  intros Hb. apply list_elem_of_In, in_map_iff in Hb as (a & <- & Ha).
  exists a. split; [done|]. by apply list_elem_of_In.
Qed.

Lemma stored_nan_free (f : Feature) (data : list CleanRecord) : nan_free (map (stored f) data).
Proof. intros x (d & -> & _)%elem_of_map_1. apply float32_nan_free. Qed.

Section Columns.
Context `{backend : Backend}.
Implicit Types (data : list CleanRecord) (f : Feature).

(** The bounds of the stored column of a non-empty data set. *)
Lemma column_bounds f data :
  data ≠ [] →
  is_least (reduce_min (map (stored f) data)) (map (stored f) data)
  ∧ is_greatest (reduce_max (map (stored f) data)) (map (stored f) data).
Proof.
  intros Hnil.
  assert (map (stored f) data ≠ []) as Hnil' by (by destruct data).
  split; [apply reduce_min_least | apply reduce_max_greatest];
    auto using stored_nan_free.
Qed.

(** A stored column with two different values, none of whose differences
    overflows: the bounds are finite and apart, and every element is rescaled
    into [0, 1]. *)
Lemma column_normalized f data :
  varies f data → in_range f data →
  ∃ lo hi : Qc,
    reduce_min (map (stored f) data) = Fin lo
    ∧ reduce_max (map (stored f) data) = Fin hi
    ∧ lo < hi
    ∧ ∃ range : Qc,
        f32_sub (Fin hi) (Fin lo) = Fin range ∧ 0 < range
        ∧ ∀ d, d ∈ data →
            ∃ x shifted : Qc,
              stored f d = Fin x ∧ lo ≤ x ∧ x ≤ hi
              ∧ f32_sub (Fin x) (Fin lo) = Fin shifted
              ∧ 0 ≤ shifted ∧ shifted ≤ range
              ∧ in_unit_interval (normalize (Fin x) (Fin lo) (Fin hi)).
Proof.
  intros Hv Hr.
  assert (data ≠ []) as Hnil.
  { destruct Hv as (d1 & _ & H1 & _). intros ->. by apply elem_of_nil in H1. }
  destruct (column_bounds f data Hnil) as [[Hlo_in Hlo] [Hhi_in Hhi]].
  apply elem_of_map_1 in Hlo_in as (dlo & Elo & Hdlo).
  apply elem_of_map_1 in Hhi_in as (dhi & Ehi & Hdhi).
  destruct (f32_sub_self_finite _ (Hr dlo dlo Hdlo Hdlo)) as [lo Flo].
  destruct (f32_sub_self_finite _ (Hr dhi dhi Hdhi Hdhi)) as [hi Fhi].
  rewrite Elo, Ehi, Flo, Fhi in *. clear Elo Ehi.
  assert (∀ d, d ∈ data → ∃ x : Qc, stored f d = Fin x ∧ lo ≤ x ∧ x ≤ hi) as Hbetween.
  { intros d Hd. destruct (f32_sub_self_finite _ (Hr d d Hd Hd)) as [x Fx].
    exists x. split; [done|].
    pose proof (Hlo _ (elem_of_map_2 (stored f) _ _ Hd)) as H1.
    pose proof (Hhi _ (elem_of_map_2 (stored f) _ _ Hd)) as H2.
    rewrite Fx in H1, H2. by split. }
  assert (lo < hi) as Hlt.
  { destruct (Qclt_le_dec lo hi) as [? | Hge]; [done|]. exfalso.
    destruct Hv as (d1 & d2 & H1 & H2 & Hne). apply Hne.
    destruct (Hbetween d1 H1) as (x1 & -> & ? & ?).
    destruct (Hbetween d2 H2) as (x2 & -> & ? & ?).
    f_equal. apply Qcle_antisym; eapply Qcle_trans; eauto; eapply Qcle_trans; eauto. }
  destruct (Hr dhi dlo Hdhi Hdlo) as [range Frange]. rewrite Fhi, Flo in Frange.
  assert (0 < range) as Hrange by (by eapply (f32_sub_pos _ _ lo hi); eauto).
  exists lo, hi. do 3 (split; [done|]). exists range. do 2 (split; [done|]).
  intros d Hd. destruct (Hbetween d Hd) as (x & Fx & Hx1 & Hx2).
  destruct (Hr d dlo Hd Hdlo) as [shifted Fshifted]. rewrite Fx, Flo in Fshifted.
  assert (0 ≤ shifted) as Hs0.
  { pose proof (float32_mono 0 (x - lo) (Qcminus_nonneg _ _ Hx1)) as Hm.
    rewrite float32_zero, <- f32_sub_Fin, Fshifted in Hm. exact Hm. }
  assert (shifted ≤ range) as Hs1.
  { assert (x - lo ≤ hi - lo) as Hle
      by (unfold Qcminus; by apply Qcplus_le_compat; [|apply Qcle_refl]).
    pose proof (float32_mono _ _ Hle) as Hm.
    rewrite <- !f32_sub_Fin, Fshifted, Frange in Hm. exact Hm. }
  exists x, shifted. do 5 (split; [done|]). split; [done|].
  unfold normalize. rewrite Fshifted, Frange. by apply f32_div_unit_interval.
Qed.

(** A stored column of one value: both bounds are that value, and every
    element is rescaled to NaN. *)
Lemma column_constant f data v :
  data ≠ [] → (∀ d, d ∈ data → stored f d = v) →
  reduce_min (map (stored f) data) = v
  ∧ reduce_max (map (stored f) data) = v
  ∧ ∀ d, d ∈ data →
      normalize (stored f d) (reduce_min (map (stored f) data))
                (reduce_max (map (stored f) data)) = NaN.
Proof.
  intros Hnil Hall.
  destruct (column_bounds f data Hnil) as [[Hlo_in _] [Hhi_in _]].
  apply elem_of_map_1 in Hlo_in as (dlo & Elo & Hdlo).
  apply elem_of_map_1 in Hhi_in as (dhi & Ehi & Hdhi).
  rewrite Elo, Ehi, !Hall by done. do 2 (split; [done|]).
  intros d Hd. rewrite Hall by done. apply normalize_constant.
Qed.
End Columns.

Lemma num_eq_dec_all (v : num) (l : list num) :
  (∀ x, x ∈ l → x = v) ∨ ∃ x, x ∈ l ∧ x ≠ v.
Proof.
  induction l as [|a l IH].
  - left. by intros x ?%elem_of_nil.
  - destruct IH as [Hall | (x & Hx & Hne)].
    + destruct (num_eqb a v) eqn:E.
      * left. apply num_eqb_eq in E as ->. intros x [-> | ?]%elem_of_cons; auto.
      * right. exists a. split; [by left | by apply num_eqb_neq].
    + right. exists x. split; [by right | done].
Qed.

(** Values of magnitude at most 2^126 are in range: no difference of two
    of them, as stored, overflows. *)
Lemma in_range_bounded (f : Feature) (data : list CleanRecord) :
  (∀ d, d ∈ data →
     - Qc_of_Z (2 ^ 126) ≤ feature_of f d ∧ feature_of f d ≤ Qc_of_Z (2 ^ 126)) →
  in_range f data.
Proof.
  intros Hb.
  assert (float32 (- Qc_of_Z (2 ^ 126)) = Fin (- Qc_of_Z (2 ^ 126))) as Flo
    by (by apply num_eqb_eq).
  assert (float32 (Qc_of_Z (2 ^ 126)) = Fin (Qc_of_Z (2 ^ 126))) as Fhi
    by (by apply num_eqb_eq).
  assert (float32 (- Qc_of_Z (2 ^ 127)) = Fin (- Qc_of_Z (2 ^ 127))) as Flo'
    by (by apply num_eqb_eq).
  assert (float32 (Qc_of_Z (2 ^ 127)) = Fin (Qc_of_Z (2 ^ 127))) as Fhi'
    by (by apply num_eqb_eq).
  intros d1 d2 H1 H2. unfold stored.
  destruct (Hb d1 H1) as [L1 U1], (Hb d2 H2) as [L2 U2].
  destruct (float32_between _ _ _ _ _ L1 U1 Flo Fhi) as (x1 & -> & Lx1 & Ux1).
  destruct (float32_between _ _ _ _ _ L2 U2 Flo Fhi) as (x2 & -> & Lx2 & Ux2).
  rewrite f32_sub_Fin.
  destruct (float32_between (- Qc_of_Z (2 ^ 127)) (x1 - x2) (Qc_of_Z (2 ^ 127))
              (- Qc_of_Z (2 ^ 127)) (Qc_of_Z (2 ^ 127))) as (r & -> & _); [| |done|done|by exists r].
  - unfold Qcle in *. rewrite this_minus. rewrite Qc_opp_this in *.
    change (this (Qc_of_Z (2 ^ 126))) with (85070591730234615865843651857942052864 # 1)%Q in *.
    change (this (Qc_of_Z (2 ^ 127))) with (170141183460469231731687303715884105728 # 1)%Q.
    lra.
  - unfold Qcle in *. rewrite this_minus. rewrite Qc_opp_this in *.
    change (this (Qc_of_Z (2 ^ 126))) with (85070591730234615865843651857942052864 # 1)%Q in *.
    change (this (Qc_of_Z (2 ^ 127))) with (170141183460469231731687303715884105728 # 1)%Q.
    lra.
Qed.

(** Either the stored feature varies, or all the records store one value of
    it. *)
Lemma varies_or_constant f data :
  varies f data ∨ ∀ d1 d2, d1 ∈ data → d2 ∈ data → stored f d1 = stored f d2.
Proof.
  destruct data as [|d0 data].
  - right. by intros d1 d2 ?%elem_of_nil.
  - destruct (num_eq_dec_all (stored f d0) (map (stored f) (d0 :: data)))
      as [Hall | (x & (d & -> & Hd)%elem_of_map_1 & Hne)].
    + right. intros d1 d2 H1 H2.
      rewrite (Hall (stored f d1)), (Hall (stored f d2)); auto using elem_of_map_2.
    + left. exists d, d0. split; [done|]. split; [by left | done].
Qed.

(** ** What [convertToTensor] returns *)

(** C1, as the script computes it, on 32-bit floats: for every sequence of
    records in which the horsepower as stored takes two different values, and
    so does the mpg, and in which no difference of two stored values of one
    feature overflows, [convertToTensor] returns as bounds the least and the
    greatest stored horsepower (mpg) of the whole sequence, every input
    (label) is [(value - min) / (max - min)], each operation rounded, of the
    record at its position in the shuffled sequence, and every input and
    every label lies in [0, 1]. *)
Theorem convertToTensor_normalizes_into_unit_interval
    `{backend : Backend} (random : nat → Qc) (data : list CleanRecord) :
  varies Horsepower data → varies Mpg data →
  in_range Horsepower data → in_range Mpg data →
  ∃ shuffled result (inputLo inputHi labelLo labelHi : Qc),
    convertToTensor random data = (shuffled, Returned result)
    ∧ shuffled ≡ₚ data
    ∧ is_least (Fin inputLo) (map (stored Horsepower) data)
    ∧ is_greatest (Fin inputHi) (map (stored Horsepower) data)
    ∧ is_least (Fin labelLo) (map (stored Mpg) data)
    ∧ is_greatest (Fin labelHi) (map (stored Mpg) data)
    ∧ inputLo < inputHi ∧ labelLo < labelHi
    ∧ inputMin result = scalar (Fin inputLo) ∧ inputMax result = scalar (Fin inputHi)
    ∧ labelMin result = scalar (Fin labelLo) ∧ labelMax result = scalar (Fin labelHi)
    ∧ inputs result =
        {| shape := [length data; 1%nat];
           values := map (λ d, normalize (float32 (horsepower d)) (Fin inputLo) (Fin inputHi))
                         shuffled |}
    ∧ labels result =
        {| shape := [length data; 1%nat];
           values := map (λ d, normalize (float32 (mpg d)) (Fin labelLo) (Fin labelHi))
                         shuffled |}
    ∧ Forall in_unit_interval (values (inputs result))
    ∧ Forall in_unit_interval (values (labels result)).
Proof.
  intros Hvh Hvm Hrh Hrm.
  pose proof (shuffle_Permutation random data) as HP.
  destruct (convertToTensor_feature random data) as (r & E & Hr).
  assert (data ≠ []) as Hnil.
  { destruct Hvh as (d1 & _ & H1 & _). intros ->. by apply elem_of_nil in H1. }
  destruct (column_bounds Horsepower data Hnil) as [Hilo Hihi].
  destruct (column_bounds Mpg data Hnil) as [Hllo Hlhi].
  destruct (column_normalized Horsepower data Hvh Hrh)
    as (ilo & ihi & Eilo & Eihi & Hilt & irange & _ & _ & Hin).
  destruct (column_normalized Mpg data Hvm Hrm)
    as (llo & lhi & Ello & Elhi & Hllt & lrange & _ & _ & Hla).
  destruct (Hr Horsepower) as (Ei & Eimin & Eimax).
  destruct (Hr Mpg) as (El & Elmin & Elmax).
  cbv zeta in *. cbn [normalized lower_bound upper_bound] in *.
  rewrite Eilo, Eihi in *. rewrite Ello, Elhi in *.
  exists (shuffle random data), r, ilo, ihi, llo, lhi.
  do 14 (split; [done|]).
  rewrite Ei, El. cbn [values].
  split; apply Forall_forall; intros v (d & -> & Hd)%elem_of_map_1; rewrite HP in Hd.
  - destruct (Hin d Hd) as (x & s & Fx & _ & _ & _ & _ & _ & Hunit). by rewrite Fx.
  - destruct (Hla d Hd) as (x & s & Fx & _ & _ & _ & _ & _ & Hunit). by rewrite Fx.
Qed.

Lemma convertToTensor_normalizes_example :
  ∃ result,
    snd (@convertToTensor cpu_backend zero_draws example_records) = Returned result
    ∧ Forall in_unit_interval (values (inputs result))
    ∧ Forall in_unit_interval (values (labels result)).
Proof.
  destruct (@convertToTensor_normalizes_into_unit_interval
              cpu_backend zero_draws example_records)
    as (shuffled & result & ilo & ihi & llo & lhi & E & _ & _ & _ & _ & _
        & _ & _ & _ & _ & _ & _ & _ & _ & Hin & Hla).
  - exists {| mpg := Qc_of_Z 18; horsepower := Qc_of_Z 130 |},
           {| mpg := Qc_of_Z 24; horsepower := Qc_of_Z 80 |}.
    split; [by left|]. split; [right; by left|]. apply num_eqb_neq. by vm_compute.
  - exists {| mpg := Qc_of_Z 18; horsepower := Qc_of_Z 130 |},
           {| mpg := Qc_of_Z 24; horsepower := Qc_of_Z 80 |}.
    split; [by left|]. split; [right; by left|]. apply num_eqb_neq. by vm_compute.
  - intros d1 d2 H1 H2. apply is_finiteb_finite.
    apply list_elem_of_In in H1, H2.
    destruct H1 as [<- | [<- | []]], H2 as [<- | [<- | []]]; by vm_compute.
  - intros d1 d2 H1 H2. apply is_finiteb_finite.
    apply list_elem_of_In in H1, H2.
    destruct H1 as [<- | [<- | []]], H2 as [<- | [<- | []]]; by vm_compute.
  - exists result. rewrite E. auto.
Defined.

(** C1 fails on the script as the specification words it.  The tensors hold
    32-bit floats: the horsepowers 16777216 and 16777217 differ, but both are
    stored as 16777216, the bounds coincide and both inputs are NaN; and with
    the horsepowers 1 and 2^130 the upper bound is +Infinity and the inputs
    are NaN and 0. *)
Lemma convertToTensor_rounding_leaves_unit_interval :
  (colliding_records ≠ []
   ∧ (∃ d1 d2, d1 ∈ colliding_records ∧ d2 ∈ colliding_records
               ∧ horsepower d1 ≠ horsepower d2)
   ∧ (∃ d1 d2, d1 ∈ colliding_records ∧ d2 ∈ colliding_records ∧ mpg d1 ≠ mpg d2)
   ∧ ∃ result,
       snd (@convertToTensor cpu_backend zero_draws colliding_records) = Returned result
       ∧ inputMin result = scalar (Fin (Qc_of_Z 16777216))
       ∧ inputMax result = scalar (Fin (Qc_of_Z 16777216))
       ∧ values (inputs result) = [NaN; NaN]
       ∧ ¬ Forall in_unit_interval (values (inputs result)))
  ∧ (∃ d1 d2, d1 ∈ overflowing_records ∧ d2 ∈ overflowing_records
              ∧ horsepower d1 ≠ horsepower d2)
  ∧ ∃ result,
      snd (@convertToTensor cpu_backend zero_draws overflowing_records) = Returned result
      ∧ inputMax result = scalar PInf
      ∧ values (inputs result) = [NaN; Fin 0]
      ∧ ¬ Forall in_unit_interval (values (inputs result)).
Proof.
  assert (¬ in_unit_interval NaN) as Hnan by (by intros (q & ? & _)).
  split; [split; [done|]; split; [|split]|split].
  - exists {| mpg := Qc_of_Z 18; horsepower := Qc_of_Z 16777216 |},
           {| mpg := Qc_of_Z 24; horsepower := Qc_of_Z 16777217 |}.
    split; [by left|]. split; [right; by left|].
    simpl. intros H%Z2Qc_inj. discriminate.
  - exists {| mpg := Qc_of_Z 18; horsepower := Qc_of_Z 16777216 |},
           {| mpg := Qc_of_Z 24; horsepower := Qc_of_Z 16777217 |}.
    split; [by left|]. split; [right; by left|].
    simpl. intros H%Z2Qc_inj. discriminate.
  - rewrite convertToTensor_closed_form. cbv zeta. cbn [snd].
    eexists. split; [reflexivity|].
    cbn [inputs inputMin inputMax values].
    assert (∀ a b, num_eqb a b = true → scalar a = scalar b) as Hs
      by (by intros a b ->%num_eqb_eq).
    split; [apply Hs; by vm_compute|]. split; [apply Hs; by vm_compute|].
    assert (map (λ x, normalize x
                   (reduce_min (map float32 (map horsepower (shuffle zero_draws colliding_records))))
                   (reduce_max (map float32 (map horsepower (shuffle zero_draws colliding_records)))))
                (map float32 (map horsepower (shuffle zero_draws colliding_records)))
            = [NaN; NaN]) as -> by (by vm_compute).
    split; [done|]. by intros [? _]%Forall_cons.
  - exists {| mpg := Qc_of_Z 18; horsepower := 1 |},
           {| mpg := Qc_of_Z 24; horsepower := Qc_of_Z (2 ^ 130) |}.
    split; [by left|]. split; [right; by left|].
    simpl. intros H. by apply (f_equal (λ q : Qc, Qnum q)) in H.
  - rewrite convertToTensor_closed_form. cbv zeta. cbn [snd].
    eexists. split; [reflexivity|].
    cbn [inputs inputMin inputMax values].
    assert (reduce_max (map float32 (map horsepower (shuffle zero_draws overflowing_records)))
            = PInf) as -> by (by vm_compute).
    split; [done|].
    assert (∀ l l' : list num, forallb (λ p, num_eqb p.1 p.2) (zip l l') = true →
                               length l = length l' → l = l') as Hl.
    { induction l as [|a l IH]; intros [|a' l']; simpl; try done.
      intros [Ha Hl]%andb_prop Hlen. f_equal; [by apply num_eqb_eq | apply IH; [done | lia]]. }
    assert (map (λ x, normalize x
                   (reduce_min (map float32 (map horsepower (shuffle zero_draws overflowing_records))))
                   PInf)
                (map float32 (map horsepower (shuffle zero_draws overflowing_records)))
            = [NaN; Fin 0]) as -> by (apply Hl; by vm_compute).
    split; [done|]. by intros [? _]%Forall_cons.
Qed.

(** C2: for every sequence of records, the sequence that [convertToTensor]
    leaves in [data] is a permutation of the one it was given: the records,
    and so the (horsepower, mpg) pairs, are the same with the same
    multiplicities, only their order may differ; and the input and the label
    at one position of the returned tensors come from the two fields of the
    record at that position. *)
Theorem convertToTensor_shuffle_preserves_pairing
    `{backend : Backend} (random : nat → Qc) (data : list CleanRecord) :
  ∃ shuffled result,
    convertToTensor random data = (shuffled, Returned result)
    ∧ shuffled ≡ₚ data
    ∧ map (λ d, (horsepower d, mpg d)) shuffled ≡ₚ map (λ d, (horsepower d, mpg d)) data
    ∧ ∃ scaleInput scaleLabel : Qc → num,
        values (inputs result) = map (λ d, scaleInput (horsepower d)) shuffled
        ∧ values (labels result) = map (λ d, scaleLabel (mpg d)) shuffled.
Proof.
  rewrite convertToTensor_closed_form. cbv zeta.
  pose proof (shuffle_Permutation random data) as HP.
  eexists. eexists. split; [reflexivity|].
  split; [exact HP|]. split; [by apply Permutation_map|].
  cbn [inputs labels values].
  eexists (λ x, normalize (float32 x) _ _), (λ y, normalize (float32 y) _ _).
  by rewrite !map_map.
Qed.

(** C3, as the script behaves: on the empty sequence [convertToTensor] throws
    nothing.  It returns two empty tensors of shape [0, 1], and as bounds
    what the backend gives as the maximum and the minimum of no element. *)
Theorem convertToTensor_empty_returns `{backend : Backend} (random : nat → Qc) :
  convertToTensor random [] =
  ([], Returned {| inputs := {| shape := [O; 1%nat]; values := [] |};
                   labels := {| shape := [O; 1%nat]; values := [] |};
                   inputMax := scalar reduce_max_empty;
                   inputMin := scalar reduce_min_empty;
                   labelMax := scalar reduce_max_empty;
                   labelMin := scalar reduce_min_empty |}).
Proof. reflexivity. Qed.

(** C3 fails on the script: the empty sequence is not rejected. *)
Lemma convertToTensor_empty_is_not_rejected :
  ¬ ∃ message,
      snd (@convertToTensor cpu_backend zero_draws [])
      = Thrown (JsError "EmptyDatasetError" message).
Proof. intros [message H]. discriminate H. Qed.

(** ** The round trip through the normalization *)





Section Round_trip.
Local Open Scope Q_scope.

End Round_trip.





(** ** The concrete scenario *)

(** C6: on [[{mpg:18,horsepower:130},{mpg:24,horsepower:80}]], whatever the
    draws of the shuffle, the bounds are 80 and 130 for the horsepower, 18
    and 24 for the mpg; the normalized horsepower values are 1 and 0 in some
    order, and each stays paired with the normalized mpg of its record (0
    with the horsepower 1, 1 with the horsepower 0). *)
Theorem convertToTensor_example_scenario `{backend : Backend} (random : nat → Qc) :
  ∃ shuffled result,
    convertToTensor random example_records = (shuffled, Returned result)
    ∧ shuffled ≡ₚ example_records
    ∧ inputMin result = scalar (Fin (Qc_of_Z 80))
    ∧ inputMax result = scalar (Fin (Qc_of_Z 130))
    ∧ labelMin result = scalar (Fin (Qc_of_Z 18))
    ∧ labelMax result = scalar (Fin (Qc_of_Z 24))
    ∧ values (inputs result) ≡ₚ [Fin 1; Fin 0]
    ∧ zip (values (inputs result)) (values (labels result))
        ≡ₚ [(Fin 1, Fin 0); (Fin 0, Fin 1)].
Proof.
  rewrite convertToTensor_closed_form. cbv zeta.
  pose proof (shuffle_Permutation random example_records) as HP.
  eexists. eexists. split; [reflexivity|]. split; [exact HP|].
  cbn [inputs labels inputMin inputMax labelMin labelMax values].
  assert (float32 (Qc_of_Z 130) = Fin (Qc_of_Z 130)) as F130 by (by apply num_eqb_eq).
  assert (float32 (Qc_of_Z 80) = Fin (Qc_of_Z 80)) as F80 by (by apply num_eqb_eq).
  assert (float32 (Qc_of_Z 18) = Fin (Qc_of_Z 18)) as F18 by (by apply num_eqb_eq).
  assert (float32 (Qc_of_Z 24) = Fin (Qc_of_Z 24)) as F24 by (by apply num_eqb_eq).
  assert (normalize (Fin (Qc_of_Z 130)) (Fin (Qc_of_Z 80)) (Fin (Qc_of_Z 130)) = Fin 1)
    as E1 by (by apply num_eqb_eq).
  assert (normalize (Fin (Qc_of_Z 80)) (Fin (Qc_of_Z 80)) (Fin (Qc_of_Z 130)) = Fin 0)
    as E0 by (by apply num_eqb_eq).
  assert (normalize (Fin (Qc_of_Z 18)) (Fin (Qc_of_Z 18)) (Fin (Qc_of_Z 24)) = Fin 0)
    as L0 by (by apply num_eqb_eq).
  assert (normalize (Fin (Qc_of_Z 24)) (Fin (Qc_of_Z 18)) (Fin (Qc_of_Z 24)) = Fin 1)
    as L1 by (by apply num_eqb_eq).
  symmetry in HP. apply Permutation_length_2_inv in HP as [-> | ->];
    cbn [map example_records horsepower mpg zip zip_with];
    rewrite F130, F80, F18, F24;
    repeat match goal with
      | |- context [reduce_min ?l] =>
          first [ change (reduce_min l) with (Fin (Qc_of_Z 80))
                | change (reduce_min l) with (Fin (Qc_of_Z 18)) ]
      | |- context [reduce_max ?l] =>
          first [ change (reduce_max l) with (Fin (Qc_of_Z 130))
                | change (reduce_max l) with (Fin (Qc_of_Z 24)) ]
      end;
    repeat (split; [reflexivity|]);
    rewrite E1, E0, L0, L1.
  - split; reflexivity.
  - split; apply perm_swap.
Qed.

(** ** A constant feature *)

(** C9, as the script behaves: there is no guard on [max - min].  When the
    horsepower (the mpg) is stored as one 32-bit float, that of [c], in every
    record of a non-empty sequence, both of its bounds are that float, the
    division is 0 / 0 (for a value stored as an infinity the subtraction
    already gives NaN), and every normalized input (label) that
    [convertToTensor] returns is NaN; nothing is thrown. *)
Theorem convertToTensor_constant_feature_is_nan
    `{backend : Backend} (random : nat → Qc) (data : list CleanRecord) :
  data ≠ [] →
  ∃ shuffled result,
    convertToTensor random data = (shuffled, Returned result)
    ∧ (∀ c, (∀ d, d ∈ data → float32 (horsepower d) = float32 c) →
         inputMin result = scalar (float32 c) ∧ inputMax result = scalar (float32 c)
         ∧ values (inputs result) = replicate (length data) NaN)
    ∧ (∀ c, (∀ d, d ∈ data → float32 (mpg d) = float32 c) →
         labelMin result = scalar (float32 c) ∧ labelMax result = scalar (float32 c)
         ∧ values (labels result) = replicate (length data) NaN).
Proof.
  intros Hnil.
  destruct (convertToTensor_feature random data) as (r & E & Hr).
  pose proof (shuffle_Permutation random data) as HP.
  pose proof (shuffle_length random data) as Hlen.
  assert (∀ f c, (∀ d, d ∈ data → stored f d = float32 c) →
            lower_bound f r = scalar (float32 c) ∧ upper_bound f r = scalar (float32 c)
            ∧ values (normalized f r) = replicate (length data) NaN) as Hconst.
  { intros f c Hall. destruct (Hr f) as (En & El & Eu).
    destruct (column_constant f data (float32 c) Hnil Hall) as (Emin & Emax & Hnan).
    split; [by rewrite El, Emin|]. split; [by rewrite Eu, Emax|].
    rewrite En. cbn [values]. rewrite <- Hlen.
    assert (∀ d, d ∈ shuffle random data → d ∈ data) as Hsub by (intros d; by rewrite HP).
    clear -Hnan Hsub. induction (shuffle random data) as [|d l IH]; simpl; [done|].
    rewrite Hnan by (apply Hsub; by left). f_equal.
    apply IH. intros d' ?. apply Hsub. by right. }
  exists (shuffle random data), r. split; [exact E|].
  split; intros c Hall.
  - apply (Hconst Horsepower c Hall).
  - apply (Hconst Mpg c Hall).
Qed.

Lemma convertToTensor_constant_feature_example :
  ∃ result,
    snd (@convertToTensor cpu_backend zero_draws constant_horsepower_records)
    = Returned result
    ∧ inputMin result = inputMax result
    ∧ values (inputs result) = [NaN; NaN].
Proof.
  destruct (@convertToTensor_constant_feature_is_nan
              cpu_backend zero_draws constant_horsepower_records)
    as (shuffled & result & E & Hin & _).
  - discriminate.
  - exists result. rewrite E. split; [reflexivity|].
    destruct (Hin (Qc_of_Z 130)) as (-> & -> & ->); [|by split].
    intros d Hd. apply list_elem_of_In in Hd.
    destruct Hd as [<- | [<- | []]]; reflexivity.
Defined.

(** C9 fails on the script: with a constant horsepower the normalized inputs
    come back as NaN. *)
Lemma constant_horsepower_propagates_nan :
  snd (@convertToTensor cpu_backend zero_draws constant_horsepower_records)
  = Returned
      {| inputs := {| shape := [2%nat; 1%nat]; values := [NaN; NaN] |};
         labels := {| shape := [2%nat; 1%nat]; values := [Fin 1; Fin 0] |};
         inputMax := scalar (Fin (Qc_of_Z 130));
         inputMin := scalar (Fin (Qc_of_Z 130));
         labelMax := scalar (Fin (Qc_of_Z 24));
         labelMin := scalar (Fin (Qc_of_Z 18)) |}.
Proof.
  rewrite convertToTensor_closed_form. cbv zeta. cbn [snd].
  change (shuffle zero_draws constant_horsepower_records)
    with [ {| mpg := Qc_of_Z 24; horsepower := Qc_of_Z 130 |};
           {| mpg := Qc_of_Z 18; horsepower := Qc_of_Z 130 |} ].
  cbn [map mpg horsepower length].
  assert (float32 (Qc_of_Z 130) = Fin (Qc_of_Z 130)) as -> by (by apply num_eqb_eq).
  assert (float32 (Qc_of_Z 18) = Fin (Qc_of_Z 18)) as -> by (by apply num_eqb_eq).
  assert (float32 (Qc_of_Z 24) = Fin (Qc_of_Z 24)) as -> by (by apply num_eqb_eq).
  change (reduce_min [Fin (Qc_of_Z 24); Fin (Qc_of_Z 18)]) with (Fin (Qc_of_Z 18)).
  change (reduce_max [Fin (Qc_of_Z 24); Fin (Qc_of_Z 18)]) with (Fin (Qc_of_Z 24)).
  change (reduce_min [Fin (Qc_of_Z 130); Fin (Qc_of_Z 130)]) with (Fin (Qc_of_Z 130)).
  change (reduce_max [Fin (Qc_of_Z 130); Fin (Qc_of_Z 130)]) with (Fin (Qc_of_Z 130)).
  assert (normalize (Fin (Qc_of_Z 24)) (Fin (Qc_of_Z 18)) (Fin (Qc_of_Z 24)) = Fin 1)
    as -> by (by apply num_eqb_eq).
  assert (normalize (Fin (Qc_of_Z 18)) (Fin (Qc_of_Z 18)) (Fin (Qc_of_Z 24)) = Fin 0)
    as -> by (by apply num_eqb_eq).
  rewrite normalize_constant. reflexivity.
Qed.

(** ** The model *)

(** C8: [createModel] returns a model of exactly two dense layers, in this
    order; either has one output unit, a bias and no activation (it is
    linear), the first takes the input shape [1] and the second the output
    of the first; so either computes [x * kernel + bias], and the model
    their composition, with nothing in between. *)
Theorem createModel_two_affine_layers :
  ∃ first second,
    createModel = Returned {| layers := [first; second] |}
    ∧ (inputShape first = Some [1%nat] ∧ units first = 1%nat
       ∧ useBias first = true ∧ activation first = Linear
       ∧ kernelShape first = Some [1%nat; 1%nat] ∧ biasShape first = Some [1%nat])
    ∧ (inputShape second = Some [1%nat] ∧ units second = 1%nat
       ∧ useBias second = true ∧ activation second = Linear
       ∧ kernelShape second = Some [1%nat; 1%nat] ∧ biasShape second = Some [1%nat])
    ∧ (∀ k b x : Qc,
         apply_dense first {| kernel := [[k]]; bias := [b] |} [x] = [x * k + b]
         ∧ apply_dense second {| kernel := [[k]]; bias := [b] |} [x] = [x * k + b])
    ∧ (∀ k1 b1 k2 b2 x : Qc,
         predict {| layers := [first; second] |}
           [ {| kernel := [[k1]]; bias := [b1] |}; {| kernel := [[k2]]; bias := [b2] |} ] [x]
         = [(x * k1 + b1) * k2 + b2]).
Proof.
  eexists. eexists. split; [reflexivity|].
  repeat split; reflexivity.
Qed.

(** ** Training *)

(** *** Losses are never negative *)











(** *** With finite labels and predictions, losses are not NaN either *)









(** *** The mini-batches *)



Section Training_facts.
Context {W : Type}.
Variable forward : W → num → num.
Variable optimizer : W → list (num * num) → W.
Implicit Types (w : W) (state : W * (num * num * nat)) (examples : list (num * num)).





End Training_facts.

Section Training_finite.
Context {W : Type}.
Variable forward : W → num → num.
Variable optimizer : W → list (num * num) → W.
Implicit Types (w : W) (state : W * (num * num * nat)) (examples : list (num * num)).




End Training_finite.





(** * Further properties of [convertToTensor] *)

Lemma lookup_map {A B : Type} (g : A → B) (l : list A) (i : nat) :
  map g l !! i = g <$> (l !! i).
Proof. revert i. induction l as [|a l IH]; intros [|i]; simpl; auto. Qed.

Lemma example_records_vary (f : Feature) : varies f example_records.
Proof.
  exists {| mpg := Qc_of_Z 18; horsepower := Qc_of_Z 130 |},
         {| mpg := Qc_of_Z 24; horsepower := Qc_of_Z 80 |}.
  split; [by left|]. split; [right; by left|].
  apply num_eqb_neq. by destruct f; vm_compute.
Qed.

Lemma example_records_in_range (f : Feature) : in_range f example_records.
Proof.
  intros d1 d2 H1 H2. apply is_finiteb_finite.
  apply list_elem_of_In in H1, H2.
  destruct H1 as [<- | [<- | []]], H2 as [<- | [<- | []]]; by destruct f; vm_compute.
Qed.

(** X5: for every sequence of [n] records, [convertToTensor] returns the
    inputs and the labels as tensors of shape [n, 1] holding [n] values each,
    the four bounds as tensors of rank 0 holding one value, and leaves [n]
    records in [data]. *)
Theorem convertToTensor_shapes `{backend : Backend} (random : nat → Qc) (data : list CleanRecord) :
  ∃ shuffled r,
    convertToTensor random data = (shuffled, Returned r)
    ∧ length shuffled = length data
    ∧ ∀ f,
        shape (normalized f r) = [length data; 1%nat]
        ∧ length (values (normalized f r)) = length data
        ∧ shape (lower_bound f r) = [] ∧ length (values (lower_bound f r)) = 1%nat
        ∧ shape (upper_bound f r) = [] ∧ length (values (upper_bound f r)) = 1%nat.
Proof.
  destruct (convertToTensor_feature random data) as (r & E & Hr).
  exists (shuffle random data), r. split; [exact E|].
  split; [apply shuffle_length|].
  intros f. destruct (Hr f) as (-> & -> & ->). cbn [shape values scalar].
  rewrite !length_map, shuffle_length. by repeat split.
Qed.


(** X7: when the stored feature takes two different values and no
    difference of two of them overflows, the range [0, 1] is used in full:
    at every position of the shuffled data that holds the least stored value
    the normalized column holds 0, at every position that holds the greatest
    one it holds 1, and both 0 and 1 occur. *)
Theorem convertToTensor_extremes
    `{backend : Backend} (random : nat → Qc) (data : list CleanRecord) (f : Feature) :
  varies f data → in_range f data →
  ∃ shuffled r lo hi,
    convertToTensor random data = (shuffled, Returned r)
    ∧ is_least lo (map (stored f) data) ∧ is_greatest hi (map (stored f) data)
    ∧ (∀ i d, shuffled !! i = Some d → stored f d = lo →
         values (normalized f r) !! i = Some (Fin 0))
    ∧ (∀ i d, shuffled !! i = Some d → stored f d = hi →
         values (normalized f r) !! i = Some (Fin 1))
    ∧ Fin 0 ∈ values (normalized f r)
    ∧ Fin 1 ∈ values (normalized f r).
Proof.
  intros Hv Hrange.
  destruct (convertToTensor_feature random data) as (r & E & Hr).
  pose proof (shuffle_Permutation random data) as HP.
  assert (data ≠ []) as Hnil.
  { destruct Hv as (d1 & _ & H1 & _). intros ->. by apply elem_of_nil in H1. }
  destruct (column_bounds f data Hnil) as [Hlo Hhi].
  destruct (column_normalized f data Hv Hrange)
    as (lo & hi & Elo & Ehi & Hlt & range & Erange & Hpos & _).
  destruct (Hr f) as (Ev & _ & _). cbv zeta in Ev.
  rewrite Elo, Ehi in *.
  assert (range ≠ 0) as Hne by (by apply not_eq_sym, Qclt_not_eq).
  assert (normalize (Fin lo) (Fin lo) (Fin hi) = Fin 0) as E0.
  { unfold normalize. rewrite Erange, f32_sub_Fin.
    assert (lo - lo = 0) as -> by apply Qcplus_opp_r.
    rewrite float32_zero, f32_div_Fin by done.
    assert (0 / range = 0) as -> by apply Qcmult_0_l. apply float32_zero. }
  assert (normalize (Fin hi) (Fin lo) (Fin hi) = Fin 1) as E1.
  { unfold normalize. rewrite Erange, f32_div_Fin by done.
    rewrite Qcdiv_self by done. apply float32_one. }
  assert (∀ v, v ∈ map (stored f) data → ∃ i d, shuffle random data !! i = Some d ∧ stored f d = v)
    as Hpre.
  { intros v (d & -> & Hd)%elem_of_map_1. rewrite <- HP in Hd.
    apply list_elem_of_lookup in Hd as [i Hi]. by exists i, d. }
  exists (shuffle random data), r, (Fin lo), (Fin hi).
  split; [exact E|]. split; [exact Hlo|]. split; [exact Hhi|].
  rewrite Ev. cbn [values].
  assert (∀ i d, shuffle random data !! i = Some d → stored f d = Fin lo →
            map (λ d, normalize (stored f d) (Fin lo) (Fin hi)) (shuffle random data) !! i
            = Some (Fin 0)) as H0.
  { intros i d Hi Ed. by rewrite lookup_map, Hi, <- E0, <- Ed. }
  assert (∀ i d, shuffle random data !! i = Some d → stored f d = Fin hi →
            map (λ d, normalize (stored f d) (Fin lo) (Fin hi)) (shuffle random data) !! i
            = Some (Fin 1)) as H1.
  { intros i d Hi Ed. by rewrite lookup_map, Hi, <- E1, <- Ed. }
  split; [exact H0|]. split; [exact H1|]. split.
  - destruct (Hpre _ (proj1 Hlo)) as (i & d & Hi & Ed).
    apply list_elem_of_lookup. exists i. by eapply H0.
  - destruct (Hpre _ (proj1 Hhi)) as (i & d & Hi & Ed).
    apply list_elem_of_lookup. exists i. by eapply H1.
Qed.

Lemma convertToTensor_extremes_example :
  ∃ r,
    snd (@convertToTensor cpu_backend zero_draws example_records) = Returned r
    ∧ Fin 0 ∈ values (inputs r) ∧ Fin 1 ∈ values (inputs r).
Proof.
  destruct (@convertToTensor_extremes cpu_backend zero_draws example_records Horsepower
              (example_records_vary Horsepower) (example_records_in_range Horsepower))
    as (shuffled & r & lo & hi & E & _ & _ & _ & _ & H0 & H1).
  exists r. rewrite E. auto.
Defined.

(** X8: normalization never reverses the order of two values, although
    rounding can merge them: when the stored feature takes two different
    values and no difference of two of them overflows, the normalized column
    is the image of the stored feature of the shuffled records under one
    function on numbers, and of two records the one with the smaller feature
    never gets the larger normalized value. *)
Theorem convertToTensor_preserves_order
    `{backend : Backend} (random : nat → Qc) (data : list CleanRecord) (f : Feature) :
  varies f data → in_range f data →
  ∃ shuffled r (scale : num → num),
    convertToTensor random data = (shuffled, Returned r)
    ∧ values (normalized f r) = map (λ d, scale (stored f d)) shuffled
    ∧ ∀ d1 d2, d1 ∈ data → d2 ∈ data → feature_of f d1 ≤ feature_of f d2 →
        num_le (scale (stored f d1)) (scale (stored f d2)).
Proof.
  intros Hv Hrange.
  destruct (convertToTensor_feature random data) as (r & E & Hr).
  destruct (column_normalized f data Hv Hrange)
    as (lo & hi & Elo & Ehi & Hlt & range & Erange & Hpos & Hin).
  destruct (Hr f) as (Ev & _ & _). cbv zeta in Ev. rewrite Elo, Ehi in Ev.
  exists (shuffle random data), r, (λ v, normalize v (Fin lo) (Fin hi)).
  split; [exact E|]. split; [by rewrite Ev|].
  intros d1 d2 H1 H2 Hle.
  destruct (Hin d1 H1) as (x1 & s1 & Ex1 & _ & _ & Es1 & _ & _ & _).
  destruct (Hin d2 H2) as (x2 & s2 & Ex2 & _ & _ & Es2 & _ & _ & _).
  pose proof (float32_mono _ _ Hle) as Hx. fold (stored f d1) (stored f d2) in Hx.
  rewrite Ex1, Ex2 in Hx |- *. simpl in Hx.
  assert (s1 ≤ s2) as Hs.
  { assert (x1 - lo ≤ x2 - lo) as Hd
      by (unfold Qcminus; by apply Qcplus_le_compat; [|apply Qcle_refl]).
    pose proof (float32_mono _ _ Hd) as Hm.
    rewrite <- !f32_sub_Fin, Es1, Es2 in Hm. exact Hm. }
  unfold normalize. rewrite Es1, Es2, Erange.
  rewrite !f32_div_Fin by (by apply not_eq_sym, Qclt_not_eq).
  apply float32_mono. unfold Qcdiv.
  apply Qcmult_le_compat_r; [done | by apply Qclt_le_weak, Qcinv_pos].
Qed.

Lemma convertToTensor_preserves_order_example :
  ∃ r (scale : num → num),
    snd (@convertToTensor cpu_backend zero_draws example_records) = Returned r
    ∧ num_le (scale (float32 (Qc_of_Z 18))) (scale (float32 (Qc_of_Z 24))).
Proof.
  destruct (@convertToTensor_preserves_order cpu_backend zero_draws example_records Mpg
              (example_records_vary Mpg) (example_records_in_range Mpg))
    as (shuffled & r & scale & E & _ & Hmono).
  exists r, scale. rewrite E. split; [done|].
  apply (Hmono {| mpg := Qc_of_Z 18; horsepower := Qc_of_Z 130 |}
               {| mpg := Qc_of_Z 24; horsepower := Qc_of_Z 80 |}).
  - by left.
  - right. by left.
  - discriminate.
Defined.

(** ** The order of the records does not matter *)

Lemma zip_map_same {A B C : Type} (g : A → B) (h : A → C) (l : list A) :
  zip (map g l) (map h l) = map (λ d, (g d, h d)) l.
Proof. induction l as [|a l IH]; simpl; [done|]. by rewrite IH. Qed.

(** X10: the outcome of [convertToTensor] depends on the order of the
    records, and on the draws of the shuffle, only through the order of its
    rows: given the same records in another order, and any other draws, it
    returns the same four bounds, tensors of the same shape, and the same
    (input, label) rows with the same multiplicities. *)
Theorem convertToTensor_order_independent
    `{backend : Backend} (random random' : nat → Qc) (data data' : list CleanRecord) :
  data ≡ₚ data' →
  ∃ shuffled r shuffled' r',
    convertToTensor random data = (shuffled, Returned r)
    ∧ convertToTensor random' data' = (shuffled', Returned r')
    ∧ shuffled ≡ₚ shuffled'
    ∧ (∀ f, lower_bound f r = lower_bound f r'
            ∧ upper_bound f r = upper_bound f r'
            ∧ shape (normalized f r) = shape (normalized f r')
            ∧ values (normalized f r) ≡ₚ values (normalized f r'))
    ∧ zip (values (inputs r)) (values (labels r))
        ≡ₚ zip (values (inputs r')) (values (labels r')).
Proof.
  intros HP.
  destruct (convertToTensor_feature random data) as (r & E & Hr).
  destruct (convertToTensor_feature random' data') as (r' & E' & Hr').
  assert (shuffle random data ≡ₚ shuffle random' data') as HS.
  { by rewrite !shuffle_Permutation. }
  assert (∀ f, reduce_min (map (stored f) data) = reduce_min (map (stored f) data')) as Emin.
  { intros f. apply reduce_min_Permutation; [apply stored_nan_free | by apply Permutation_map]. }
  assert (∀ f, reduce_max (map (stored f) data) = reduce_max (map (stored f) data')) as Emax.
  { intros f. apply reduce_max_Permutation; [apply stored_nan_free | by apply Permutation_map]. }
  exists (shuffle random data), r, (shuffle random' data'), r'.
  split; [exact E|]. split; [exact E'|]. split; [exact HS|]. split.
  - intros f. destruct (Hr f) as (-> & -> & ->), (Hr' f) as (-> & -> & ->).
    cbn [shape values]. rewrite (Emin f), (Emax f).
    split; [done|]. split; [done|].
    split; [by rewrite (Permutation_length HP)|].
    by apply Permutation_map.
  - destruct (Hr Horsepower) as (Ei & _), (Hr Mpg) as (El & _).
    destruct (Hr' Horsepower) as (Ei' & _), (Hr' Mpg) as (El' & _).
    cbn [normalized] in *. rewrite Ei, El, Ei', El'. cbn [values].
    rewrite (Emin Horsepower), (Emax Horsepower), (Emin Mpg), (Emax Mpg).
    rewrite !zip_map_same. by apply Permutation_map.
Qed.

Lemma convertToTensor_order_independent_example :
  ∃ r r',
    snd (@convertToTensor cpu_backend zero_draws example_records) = Returned r
    ∧ snd (@convertToTensor cpu_backend (λ _, Q2Qc (1 # 2)) (rev example_records)) = Returned r'
    ∧ inputMin r = inputMin r' ∧ inputMax r = inputMax r'
    ∧ zip (values (inputs r)) (values (labels r))
        ≡ₚ zip (values (inputs r')) (values (labels r')).
Proof.
  destruct (@convertToTensor_order_independent cpu_backend zero_draws (λ _, Q2Qc (1 # 2))
              example_records (rev example_records))
    as (shuffled & r & shuffled' & r' & E & E' & _ & Hb & Hz).
  - apply perm_swap.
  - exists r, r'. rewrite E, E'.
    destruct (Hb Horsepower) as (Hlo & Hhi & _). auto.
Defined.

(** * The bounds of a non-empty data set *)

(** X14: for every non-empty sequence of records, whether or not a feature
    varies, each of the two bounds that [convertToTensor] returns for it is
    the stored value of some record, the lower one is the least and the upper
    one the greatest stored value of the feature over the whole sequence, and
    the two coincide exactly when the feature is stored as one value only. *)
Theorem convertToTensor_bounds
    `{backend : Backend} (random : nat → Qc) (data : list CleanRecord) :
  data ≠ [] →
  ∃ shuffled r,
    convertToTensor random data = (shuffled, Returned r)
    ∧ ∀ f, ∃ lo hi,
        lower_bound f r = scalar lo ∧ upper_bound f r = scalar hi
        ∧ is_least lo (map (stored f) data) ∧ is_greatest hi (map (stored f) data)
        ∧ num_le lo hi
        ∧ (lo = hi ↔ ¬ varies f data).
Proof.
  intros Hnil.
  destruct (convertToTensor_feature random data) as (r & E & Hr).
  exists (shuffle random data), r. split; [exact E|].
  intros f. destruct (Hr f) as (_ & -> & ->).
  destruct (column_bounds f data Hnil) as [Hlo Hhi].
  eexists. eexists. do 4 (split; [done|]).
  split; [apply Hlo, Hhi|].
  split.
  - intros Eq (d1 & d2 & H1 & H2 & Hne). apply Hne.
    pose proof (proj2 Hlo _ (elem_of_map_2 (stored f) _ _ H1)) as L1.
    pose proof (proj2 Hlo _ (elem_of_map_2 (stored f) _ _ H2)) as L2.
    pose proof (proj2 Hhi _ (elem_of_map_2 (stored f) _ _ H1)) as U1.
    pose proof (proj2 Hhi _ (elem_of_map_2 (stored f) _ _ H2)) as U2.
    rewrite <- Eq in U1, U2.
    rewrite <- (num_le_antisym _ _ L1 U1). by apply num_le_antisym.
  - intros Hnv. destruct (varies_or_constant f data) as [Hv | Hc]; [done|].
    destruct Hlo as [(d1 & -> & H1)%elem_of_map_1 _].
    destruct Hhi as [(d2 & -> & H2)%elem_of_map_1 _].
    by apply Hc.
Qed.

Lemma convertToTensor_bounds_example :
  ∃ r lo hi,
    snd (@convertToTensor cpu_backend zero_draws constant_horsepower_records) = Returned r
    ∧ inputMin r = scalar lo ∧ inputMax r = scalar hi ∧ num_le lo hi.
Proof.
  destruct (@convertToTensor_bounds cpu_backend zero_draws constant_horsepower_records)
    as (shuffled & r & E & Hb).
  - discriminate.
  - destruct (Hb Horsepower) as (lo & hi & Hlo & Hhi & _ & _ & Hle & _).
    exists r, lo, hi. rewrite E. auto.
Defined.

(** * Every order can come out of the shuffle *)

Section Draws.
Local Open Scope Q_scope.



End Draws.

Section Reach.
Context {A : Type}.
Implicit Types (array l t suffix : list A).




End Reach.



(** * The bounds and the data *)

(** X15: the bounds that [convertToTensor] returns are the 32-bit floats
    nearest to the least and to the greatest value of the feature in the
    data: rounding keeps the order, so the least stored value is the stored
    least value; a finite bound is within [|m| * 2^-24 + 2^-150] of the
    value [m] it comes from. *)
Theorem convertToTensor_bounds_round_extremes
    `{backend : Backend} (random : nat → Qc) (data : list CleanRecord) (f : Feature)
    (least greatest : CleanRecord) :
  least ∈ data → greatest ∈ data →
  (∀ d, d ∈ data → feature_of f least ≤ feature_of f d ∧ feature_of f d ≤ feature_of f greatest) →
  ∃ shuffled r,
    convertToTensor random data = (shuffled, Returned r)
    ∧ lower_bound f r = scalar (float32 (feature_of f least))
    ∧ upper_bound f r = scalar (float32 (feature_of f greatest))
    ∧ (∀ lo : Qc, lower_bound f r = scalar (Fin lo) →
         (Qabs (lo - feature_of f least)
          <= Qabs (feature_of f least) * (1 # 2 ^ 24) + (1 # 2 ^ 150))%Q)
    ∧ (∀ hi : Qc, upper_bound f r = scalar (Fin hi) →
         (Qabs (hi - feature_of f greatest)
          <= Qabs (feature_of f greatest) * (1 # 2 ^ 24) + (1 # 2 ^ 150))%Q).
Proof.
  intros Hl Hg Hall.
  destruct (convertToTensor_feature random data) as (r & E & Hr).
  exists (shuffle random data), r. split; [exact E|].
  destruct (Hr f) as (_ & Elo & Ehi). cbv zeta in Elo, Ehi.
  assert (data ≠ []) as Hnil by (intros ->; by apply elem_of_nil in Hl).
  destruct (column_bounds f data Hnil) as [Hmin Hmax].
  assert (reduce_min (map (stored f) data) = float32 (feature_of f least)) as Emin.
  { eapply is_least_unique; [exact Hmin|]. split; [by apply (elem_of_map_2 (stored f))|].
    intros x (d & -> & Hd)%elem_of_map_1. apply float32_mono. by apply Hall. }
  assert (reduce_max (map (stored f) data) = float32 (feature_of f greatest)) as Emax.
  { eapply is_greatest_unique; [exact Hmax|]. split; [by apply (elem_of_map_2 (stored f))|].
    intros x (d & -> & Hd)%elem_of_map_1. apply float32_mono. by apply Hall. }
  rewrite Elo, Ehi, Emin, Emax. do 2 (split; [done|]).
  split; intros v [= Ev]; by apply float32_near.
Qed.

Lemma convertToTensor_bounds_round_extremes_example :
  ∃ r,
    snd (@convertToTensor cpu_backend zero_draws example_records) = Returned r
    ∧ inputMin r = scalar (float32 (Qc_of_Z 80))
    ∧ inputMax r = scalar (float32 (Qc_of_Z 130)).
Proof.
  destruct (@convertToTensor_bounds_round_extremes cpu_backend zero_draws example_records
              Horsepower
              {| mpg := Qc_of_Z 24; horsepower := Qc_of_Z 80 |}
              {| mpg := Qc_of_Z 18; horsepower := Qc_of_Z 130 |})
    as (shuffled & r & E & Hlo & Hhi & _).
  - right. by left.
  - by left.
  - intros d Hd. apply list_elem_of_In in Hd.
    destruct Hd as [<- | [<- | []]]; by split.
  - exists r. rewrite E. auto.
Defined.
